(** * Flag value resolution and command dispatch of the cli package

    A shallow embedding of the collection value cell ([SliceBase]), of the
    value-source precedence of a flag, and of the parts of [Command.Run]
    that resolve sub-commands, inherit persistent flags, check required
    flags, run the hooks and report invalid flag accesses. *)

From Stdlib Require Import Ascii.
From Stdlib Require String.
From stdpp Require Import base option list sorting strings gmap.


(** ** The functions of Go's [strings] package that the code calls *)

Module GoStrings.

(** [strings.HasPrefix(s, prefix)] *)
Definition HasPrefix (s pfx : string) : bool := Stdlib.Strings.String.prefix pfx s.

Fixpoint drop (n : nat) (s : string) : string :=
  match n, s with
  | O, _ => s
  | S _, EmptyString => EmptyString
  | S k, String _ s' => drop k s'
  end.

(** [strings.Replace(s, old, "", 1)]: the first occurrence of [old] is cut
    out of [s]; [s] is returned as it is when [old] does not occur. *)
Fixpoint Replace1 (s old : string) {struct s} : string :=
  if HasPrefix s old then drop (String.length old) s
  else match s with
       | EmptyString => EmptyString
       | String c s' => String c (Replace1 s' old)
       end.

(** White space of [strings.TrimSpace] among the one-byte characters. *)
Definition isSpace (c : ascii) : bool :=
  let n := nat_of_ascii c in
  (Nat.leb 9 n && Nat.leb n 13) || Nat.eqb n 32.

Fixpoint TrimLeft (s : string) : string :=
  match s with
  | String c s' => if isSpace c then TrimLeft s' else s
  | EmptyString => EmptyString
  end.

(** [TrimRight] keeps a character when it is not a space or when something
    is left of what follows it. *)
Fixpoint TrimRight (s : string) : string :=
  match s with
  | EmptyString => EmptyString
  | String c s' =>
      match TrimRight s' with
      | EmptyString => if isSpace c then EmptyString else String c EmptyString
      | r => String c r
      end
  end.

(** [strings.TrimSpace(s)] *)
Definition TrimSpace (s : string) : string := TrimRight (TrimLeft s).

(** [strings.Split(s, sep)] for a non-empty [sep]: [skip] counts the
    characters of a separator just matched that are still to be passed
    over, [cur] is the piece being collected, reversed. *)
Fixpoint splitGo (sep : string) (skip : nat) (cur : string) (s : string)
  : list string :=
  match s with
  | EmptyString => [String.rev cur]
  | String c s' =>
      match skip with
      | S k => splitGo sep k cur s'
      | O =>
          if HasPrefix s sep
          then String.rev cur :: splitGo sep (String.length sep - 1) EmptyString s'
          else splitGo sep 0 (String c cur) s'
      end
  end.

(** With an empty separator [strings.Split] explodes the string into its
    characters (bytes here). *)
Fixpoint explode (s : string) : list string :=
  match s with
  | EmptyString => []
  | String c s' => String c EmptyString :: explode s'
  end.

Definition Split (s sep : string) : list string :=
  match sep with
  | EmptyString => explode s
  | _ => splitGo sep 0 EmptyString s
  end.

(** [strings.Join(l, sep)] *)
Fixpoint Join (l : list string) (sep : string) : string :=
  match l with
  | [] => EmptyString
  | [x] => x
  | x :: rest => x +:+ sep +:+ Join rest sep
  end.

End GoStrings.

(** ** Outcome of a call that returns a Go [error] *)

Inductive outcome (E : Type) : Type :=
| Nil                 (* the call returned a nil error *)
| Error (e : E)       (* the call returned the error [e] *)
| Panic.              (* the call panicked on a nil dereference *)
Arguments Nil {E}.
Arguments Error {E} e.
Arguments Panic {E}.

(** ** Process-wide settings of the slice flags *)

Record SliceSettings : Type := mkSliceSettings {
  defaultSliceFlagSeparator : string;
  disableSliceFlagSeparator : bool
}.

(** Modelled from the spec: [flagSplitMultiValues] is not among the sources.
    The raw string is split on the active separator, or taken as a single
    token when splitting is disabled. *)
Definition flagSplitMultiValues (g : SliceSettings) (val : string) : list string :=
  if disableSliceFlagSeparator g then [val]
  else GoStrings.Split val (defaultSliceFlagSeparator g).

(** ** The value source chain *)

(** Modelled from the spec: the lookup of a value source chain is not among
    the sources. Each source name is looked up in the process environment
    in order; missing sources are skipped and the first non-empty match
    wins. The result is the value with the name of its source. *)
Fixpoint LookupWithSource (env : gmap string string) (sources : list string)
  : option (string * string) :=
  match sources with
  | [] => None
  | key :: rest =>
      match env !! key with
      | Some EmptyString | None => LookupWithSource env rest
      | Some val => Some (val, key)
      end
  end.

(** ** The collection value cell: [SliceBase] *)

Section SliceBase.

(** Element type and the error type of its parser. *)
Context {T E : Type}.

(** The zero value of [T]. *)
Variable zero : T.

(** The inner value cell of kind [T]: [i.value.Set(s)] followed by
    [i.value.Get().(T)]; both failures are errors of [Set]. *)
Variable valueSet : string -> E + T.

(** [encoding/json] on a slice of [T]: [json.Marshal] (the error is dropped
    by the caller, which then sees no bytes) and [json.Unmarshal], whose
    error is dropped as well and leaves the target as it was. *)
Variable jsonMarshal : list T -> string.
Variable jsonUnmarshal : string -> option (list T).

(** The reserved prefix of a serialized slice (a constant of the package
    that is not among the sources). *)
Variable slPfx : string.

(** [fmt]'s rendering of a slice, used by [String]. *)
Variable fmtSlice : list T -> string.

Variable g : SliceSettings.

(** [value] is the inner cell: [None] is the nil interface that
    [NewSliceBase] leaves, [Some t] a cell holding [t]. *)
Record SliceBase : Type := mkSliceBase {
  slice : list T;
  hasBeenSet : bool;
  value : option T
}.

(** [SliceBase.Create(val, p, c)] *)
Definition Create (val : list T) : SliceBase :=
  {| slice := [] ++ val; hasBeenSet := false; value := Some zero |}.

(** [NewSliceBase(defaults...)] *)
Definition NewSliceBase (defaults : list T) : SliceBase :=
  {| slice := defaults; hasBeenSet := false; value := None |}.

(** [SliceBase.SetOne] *)
Definition SetOne (i : SliceBase) (v : T) : SliceBase :=
  let i1 := if hasBeenSet i then i
            else {| slice := []; hasBeenSet := true; value := value i |} in
  {| slice := slice i1 ++ [v]; hasBeenSet := hasBeenSet i1; value := value i1 |}.

(** The cell [Set] goes on with after its first lines: the contents are
    dropped when the cell had not been set. *)
Definition cleared (i : SliceBase) : SliceBase :=
  if hasBeenSet i then i
  else {| slice := []; hasBeenSet := true; value := value i |}.

(** The loop of [Set] over the tokens of the raw value. *)
Fixpoint setTokens (i : SliceBase) (toks : list string) : SliceBase * outcome E :=
  match toks with
  | [] => (i, Nil)
  | s :: rest =>
      match value i with
      | None => (i, Panic)
      | Some _ =>
          match valueSet (GoStrings.TrimSpace s) with
          | inl e => (i, Error e)
          | inr tmp =>
              setTokens {| slice := slice i ++ [tmp];
                           hasBeenSet := hasBeenSet i;
                           value := Some tmp |} rest
          end
      end
  end.

(** [SliceBase.Set(value)] *)
Definition Set' (i : SliceBase) (val : string) : SliceBase * outcome E :=
  let i1 := cleared i in
  if GoStrings.HasPrefix val slPfx then
    let sl := match jsonUnmarshal (GoStrings.Replace1 val slPfx) with
              | Some l => l
              | None => slice i1
              end in
    ({| slice := sl; hasBeenSet := true; value := value i1 |}, Nil)
  else setTokens i1 (flagSplitMultiValues g val).

(** [SliceBase.Serialize] *)
Definition Serialize (i : SliceBase) : string :=
  slPfx +:+ jsonMarshal (slice i).

(** [SliceBase.Value] and [SliceBase.Get] *)
Definition Value (i : SliceBase) : list T := slice i.
Definition Get (i : SliceBase) : list T := slice i.

(** [SliceBase.String] *)
Definition String_ (i : SliceBase) : string := fmtSlice (Value i).

(** Successive [Set] calls of one parse, in order; the parse stops at the
    first call that does not return nil. *)
Fixpoint setAll (i : SliceBase) (vals : list string) : SliceBase * outcome E :=
  match vals with
  | [] => (i, Nil)
  | v :: rest =>
      match Set' i v with
      | (i', Nil) => setAll i' rest
      | r => r
      end
  end.

(** *** A slice flag and its value sources *)

(** The fields of a [FlagBase] over a slice that decide its value. *)
Record SliceFlag : Type := mkSliceFlag {
  sfName : string;
  sfAliases : list string;
  sfValue : list T;          (* the declared default, [Value] *)
  sfSources : list string    (* the names of [Sources], in order *)
}.

(** What applying a flag leaves: the value cell of the parse, or the error
    of a source value that does not parse, with the source it came from. *)
Inductive applied : Type :=
| Applied (cell : SliceBase)
| SourceError (val source : string) (e : E)
| ApplyPanic.

(** Modelled from the spec: [FlagBase.Apply] is not among the sources. The
    value source chain supplies the initial value of the parse: the value
    found is fed into the [Set] of a cell created from the declared
    default, and the cell of the parse is created from what that cell then
    holds; without a source value the cell is created from the declared
    default. A source value that fails to parse is an error that carries
    the source. *)
Definition Apply (env : gmap string string) (f : SliceFlag) : applied :=
  match LookupWithSource env (sfSources f) with
  | Some (val, source) =>
      match Set' (Create (sfValue f)) val with
      | (tmpVal, Nil) => Applied (Create (Get tmpVal))
      | (_, Error e) => SourceError val source e
      | (_, Panic) => ApplyPanic
      end
  | None => Applied (Create (sfValue f))
  end.

(** One parse of a flag: the flag is applied, then the command line calls
    [Set] once per occurrence of the flag, in order. [None] is a parse that
    failed; otherwise the resolved value is what the cell holds. *)
Definition resolve (env : gmap string string) (f : SliceFlag)
  (occurrences : list string) : option (list T) :=
  match Apply env f with
  | Applied cell =>
      match setAll cell occurrences with
      | (cell', Nil) => Some (Get cell')
      | _ => None
      end
  | _ => None
  end.

(** *** Reference definitions for the properties of a slice flag *)

(** The elements the tokens stand for, when each token parses. *)
Fixpoint parseTokens (toks : list string) : option (list T) :=
  match toks with
  | [] => Some []
  | s :: rest =>
      match valueSet (GoStrings.TrimSpace s) with
      | inl _ => None
      | inr t => cons t <$> parseTokens rest
      end
  end.

(** The value that the occurrences on the command line yield on their own,
    in a cell without default. *)
Definition fromCommandLine (occurrences : list string) : option (list T) :=
  match setAll (Create []) occurrences with
  | (cell, Nil) => Some (Get cell)
  | _ => None
  end.

(** The value that a source value yields on its own. *)
Definition fromSource (val : string) : option (list T) :=
  match Set' (Create []) val with
  | (cell, Nil) => Some (Get cell)
  | _ => None
  end.

(** The precedence of the value sources in the words of the specification:
    the command line when the flag occurs on it, otherwise the first source
    that has a value, otherwise the declared default. *)
Definition precedence (env : gmap string string) (f : SliceFlag)
  (occurrences : list string) : option (list T) :=
  match occurrences with
  | _ :: _ => fromCommandLine occurrences
  | [] =>
      match LookupWithSource env (sfSources f) with
      | Some (val, _) => fromSource val
      | None => Some (sfValue f)
      end
  end.

End SliceBase.

Arguments SliceBase : clear implicits.
Arguments SliceFlag : clear implicits.
Arguments applied : clear implicits.

(** ** A string slice, as used by the string slice flag *)

(** The inner cell of a string slice stores the token as it is. *)
Definition stringValueSet (s : string) : string + string := inr s.

Definition dquote : ascii := ascii_of_nat 34.
Definition backslash : ascii := ascii_of_nat 92.

Fixpoint jsonEscape (s : string) : string :=
  match s with
  | EmptyString => EmptyString
  | String c s' =>
      if bool_decide (c = dquote) || bool_decide (c = backslash)
      then String backslash (String c (jsonEscape s'))
      else String c (jsonEscape s')
  end.

Definition jsonQuote (s : string) : string :=
  String dquote (jsonEscape s +:+ String dquote EmptyString).

(** The JSON text of a slice of strings whose characters need no escape
    other than that of the quote and the backslash. *)
Definition jsonMarshalStrings (l : list string) : string :=
  "[" +:+ GoStrings.Join (map jsonQuote l) "," +:+ "]".

(** States of the reader of such a text. *)
Inductive jsonState : Type :=
| JStart                    (* nothing read *)
| JOpen                     (* after the opening bracket *)
| JString (cur : string)    (* inside a string; [cur] is reversed *)
| JEscape (cur : string)    (* after a backslash inside a string *)
| JAfter                    (* after a closing quote *)
| JComma                    (* after a comma *)
| JDone.                    (* after the closing bracket *)

Fixpoint jsonRead (st : jsonState) (acc : list string) (s : string)
  : option (list string) :=
  match s with
  | EmptyString => match st with JDone => Some (rev acc) | _ => None end
  | String c s' =>
      match st with
      | JStart => if bool_decide (c = "["%char) then jsonRead JOpen acc s' else None
      | JOpen =>
          if bool_decide (c = "]"%char) then jsonRead JDone acc s'
          else if bool_decide (c = dquote) then jsonRead (JString EmptyString) acc s'
          else None
      | JString cur =>
          if bool_decide (c = dquote) then jsonRead JAfter (String.rev cur :: acc) s'
          else if bool_decide (c = backslash) then jsonRead (JEscape cur) acc s'
          else jsonRead (JString (String c cur)) acc s'
      | JEscape cur =>
          if bool_decide (c = dquote) || bool_decide (c = backslash)
          then jsonRead (JString (String c cur)) acc s'
          else None
      | JAfter =>
          if bool_decide (c = ","%char) then jsonRead JComma acc s'
          else if bool_decide (c = "]"%char) then jsonRead JDone acc s'
          else None
      | JComma =>
          if bool_decide (c = dquote) then jsonRead (JString EmptyString) acc s'
          else None
      | JDone => None
      end
  end.

Definition jsonUnmarshalStrings (s : string) : option (list string) :=
  jsonRead JStart [] s.

(** [fmt]'s [%v] of a slice of strings. *)
Definition fmtStrings (l : list string) : string :=
  "[" +:+ GoStrings.Join l " " +:+ "]".

Definition commaSeparated : SliceSettings :=
  {| defaultSliceFlagSeparator := ","; disableSliceFlagSeparator := false |}.

(** ** Errors and results of the command runner *)

Local Unset Elimination Schemes.
Inductive error : Type :=
| errString (msg : string)                       (* an error of user code or of a parser *)
| errRequiredFlags (missingFlags : list string)  (* [&errRequiredFlags{...}] *)
| multiError (errs : list error).                (* [newMultiError(...)] *)

Local Set Elimination Schemes.

Definition newMultiError (errs : list error) : error := multiError errs.

(** A computation that returns a value, returns an error, or panics (a nil
    dereference, or the flag package refusing a flag defined twice). *)
Inductive result (A : Type) : Type :=
| Ok (a : A)
| Err (e : error)
| Panicked.
Arguments Ok {A} a.
Arguments Err {A} e.
Arguments Panicked {A}.

#[global] Instance result_bind : MBind result := fun A B k r =>
  match r with
  | Ok a => k a
  | Err e => Err e
  | Panicked => Panicked
  end.

(** ** Flags and flag sets *)

(** What [flag.Getter.Get] of a flag's cell returns. *)
Inductive anyValue : Type :=
| VBool (b : bool)
| VString (s : string)
| VUint64 (n : N)
| VIntSlice (l : list Z)
| VUintSlice (l : list N)
| VStringSlice (l : list string).

(** What the command runner sees of a [Flag]. *)
Record Flag : Type := mkFlag {
  Names : list string;              (* [f.Names()]: the name, then the aliases *)
  IsRequired : bool;                (* a [RequiredFlag] that is required *)
  IsPersistent : bool;              (* a [PersistentFlag] that is persistent *)
  IsSet : bool;                     (* [f.IsSet()]: a source supplied a value *)
  applyErr : option error;          (* the error of its sources, if any *)
  RunAction : option (option error);(* an [ActionableFlag] and what its action returns *)
  flagValue : anyValue               (* what [Get] of its cell returns *)
}.

(** [flag.FlagSet]: the defined flags by name, the names that were set, and
    the arguments left after the flags. *)
Record FlagSet : Type := mkFlagSet {
  formal : gmap string Flag;
  actual : gset string;
  fsArgs : list string
}.

Definition emptyFlagSet : FlagSet :=
  {| formal := ∅; actual := ∅; fsArgs := [] |}.

(** [FlagSet.Lookup] *)
Definition Lookup (fs : FlagSet) (name : string) : option Flag := formal fs !! name.

(** The names [FlagSet.VisitAll] and [FlagSet.Visit] go through, in
    lexicographical order. *)
Definition VisitAll (fs : FlagSet) : list string :=
  merge_sort String.le (elements (dom (formal fs))).

Definition Visit (fs : FlagSet) : list string :=
  merge_sort String.le (elements (actual fs)).

(** [FlagSet.Var]: defining a name twice panics. *)
Definition Var (fs : FlagSet) (f : Flag) (name : string) : result FlagSet :=
  match formal fs !! name with
  | Some _ => Panicked
  | None => Ok {| formal := <[name := f]> (formal fs);
                  actual := actual fs; fsArgs := fsArgs fs |}
  end.

Fixpoint VarAll (fs : FlagSet) (f : Flag) (names : list string) : result FlagSet :=
  match names with
  | [] => Ok fs
  | name :: rest => fs' ← Var fs f name; VarAll fs' f rest
  end.

(** Modelled from the spec: [Flag.Apply] is not among the sources. Applying
    a flag into a parse context resolves its sources, which may fail, and
    binds each of its names to its value cell. *)
Definition Flag_Apply (f : Flag) (fs : FlagSet) : result FlagSet :=
  match applyErr f with
  | Some e => Err e
  | None => VarAll fs f (Names f)
  end.

(** A flag that can be applied into a flag set that has none of its names:
    its names differ from one another and its sources give no error. *)
Definition appliesCleanly (f : Flag) : bool :=
  bool_decide (NoDup (Names f)) &&
  match applyErr f with None => true | Some _ => false end.

Fixpoint applyFlags (fs : FlagSet) (flags : list Flag) : result FlagSet :=
  match flags with
  | [] => Ok fs
  | f :: rest => fs' ← Flag_Apply f fs; applyFlags fs' rest
  end.

(** Modelled from the spec: [newFlagSet] is not among the sources. The
    parse context of a command starts empty and every flag of the command
    is applied into it. *)
Definition newFlagSet (flags : list Flag) : result FlagSet :=
  applyFlags emptyFlagSet flags.

(** ** Commands *)

(** [Before], [After] and [Action] are user functions: a hook is given by
    the error its call returns. *)
Definition hook : Type := option error.

Local Unset Elimination Schemes.
Inductive Command : Type := mkCommand {
  Name : string;
  Aliases : list string;
  DefaultCommand : string;
  Commands : list Command;
  Flags : list Flag;
  MutuallyExclusiveFlags : list (list (list Flag));
  Before : option hook;
  After : option hook;
  Action : option hook;
  InvalidFlagAccessHandler : option nat;
  SkipFlagParsing : bool;
  EnableShellCompletion : bool;
  appliedFlags : list Flag;
  flagSet : option FlagSet
}.
Local Set Elimination Schemes.

(** The [parent] pointers are kept outside the record: a command is used
    together with the list of its ancestors, nearest first. *)

(** [Command.Names] *)
Definition Command_Names (cmd : Command) : list string := [Name cmd] ++ Aliases cmd.

(** [checkStringSliceIncludes] *)
Definition checkStringSliceIncludes (want : string) (sSlice : list string) : bool :=
  existsb (fun s => bool_decide (want = s)) sSlice.

(** [Command.HasName] *)
Definition HasName (cmd : Command) (name : string) : bool :=
  existsb (fun n => bool_decide (n = name)) (Command_Names cmd).

(** [Command.Command]: the first sub-command that has the name, or nil. *)
Definition Command_Command (cmd : Command) (name : string) : option Command :=
  find (fun subCmd => HasName subCmd name) (Commands cmd).

(** [Command.Lineage] *)
Definition Lineage (cmd : Command) (parents : list Command) : list Command :=
  [cmd] ++ parents.

(** [Command.allFlags] *)
Definition allFlags (cmd : Command) : list Flag :=
  Flags cmd ++ concat (concat (MutuallyExclusiveFlags cmd)).

(** [Command.Args]: nil flag set, nil dereference. *)
Definition Args (cmd : Command) : result (list string) :=
  match flagSet cmd with
  | Some fs => Ok (fsArgs fs)
  | None => Panicked
  end.

(** *** Lookup of flags along the lineage *)

(** [Command.lookupFlag]: the first flag of the lineage that has the name. *)
Definition lookupFlag (cmd : Command) (parents : list Command) (name : string)
  : option Flag :=
  find (fun f => existsb (fun n => bool_decide (n = name)) (Names f))
       (flat_map Flags (Lineage cmd parents)).

(** A call of an [InvalidFlagAccessHandler]: the handler, the command it
    is a field of, and the flag name it is given. *)
Record invalidAccess : Type := mkInvalidAccess {
  handler : nat;
  handlerOf : Command;
  accessed : string
}.

(** [Command.onInvalidFlag], on the lineage of the command: the call it
    makes, if it makes one. *)
Fixpoint onInvalidFlag (lineage : list Command) (name : string)
  : option invalidAccess :=
  match lineage with
  | [] => None
  | cmd :: parent =>
      match InvalidFlagAccessHandler cmd with
      | Some h => Some {| handler := h; handlerOf := cmd; accessed := name |}
      | None => onInvalidFlag parent name
      end
  end.

(** The loop of [Command.lookupFlagSet] over the lineage. *)
Fixpoint lookupFlagSetIn (lineage : list Command) (name : string)
  : option FlagSet :=
  match lineage with
  | [] => None
  | pCmd :: rest =>
      match flagSet pCmd with
      | None => lookupFlagSetIn rest name
      | Some fs =>
          match Lookup fs name with
          | Some _ => Some fs
          | None => lookupFlagSetIn rest name
          end
      end
  end.

(** [Command.lookupFlagSet]: the flag set found, or nil after
    [onInvalidFlag]; the second component is the handler call made. *)
Definition lookupFlagSet (cmd : Command) (parents : list Command) (name : string)
  : option FlagSet * option invalidAccess :=
  match lookupFlagSetIn (Lineage cmd parents) name with
  | Some fs => (Some fs, None)
  | None => (None, onInvalidFlag (cmd :: parents) name)
  end.

(** [Command.IsSet] *)
Definition Command_IsSet (cmd : Command) (parents : list Command) (name : string)
  : bool * option invalidAccess :=
  match lookupFlagSet cmd parents name with
  | (None, call) => (false, call)
  | (Some flSet, call) =>
      if existsb (fun fname => bool_decide (fname = name)) (Visit flSet)
      then (true, call)
      else match lookupFlag cmd parents name with
           | None => (false, call)
           | Some fl => (IsSet fl, call)
           end
  end.

(** [Command.Value]: nil is [None]. *)
Definition Command_Value (cmd : Command) (parents : list Command) (name : string)
  : option anyValue * option invalidAccess :=
  match lookupFlagSet cmd parents name with
  | (Some fs, call) => (flagValue <$> Lookup fs name, call)
  | (None, call) => (None, call)
  end.

(** [Command.Count] is not needed; [Command.Set] is below, with the flag
    package's [FlagSet.Set] as a parameter. *)

(** The typed getters: [Uint64], [UintSlice] and [IntSlice] are written on
    the context, whose [Value] has the body of [Command.Value]; a nil
    slice is the empty list. *)
Definition Uint64 (cmd : Command) (parents : list Command) (name : string) : N :=
  match fst (Command_Value cmd parents name) with
  | Some (VUint64 v) => v
  | _ => 0%N
  end.

Definition UintSlice (cmd : Command) (parents : list Command) (name : string)
  : list N :=
  match fst (Command_Value cmd parents name) with
  | Some (VUintSlice v) => v
  | _ => []
  end.

Definition IntSlice (cmd : Command) (parents : list Command) (name : string)
  : list Z :=
  match fst (Command_Value cmd parents name) with
  | Some (VIntSlice v) => v
  | _ => []
  end.

(** *** The required flags *)

(** The inner loop of [checkRequiredFlags] over the names of one flag:
    [flagName] ends as the last name, [flagPresent] tells whether one of
    the names is set. *)
Definition requiredFlagScan (cmd : Command) (parents : list Command) (f : Flag)
  : string * bool :=
  fold_left
    (fun (st : string * bool) key =>
       (key, snd st || fst (Command_IsSet cmd parents (GoStrings.TrimSpace key))))
    (Names f) (EmptyString, false).

(** What one flag adds to [missingFlags]. *)
Definition missingFlag (cmd : Command) (parents : list Command) (f : Flag)
  : list string :=
  if IsRequired f then
    let '(flagName, flagPresent) := requiredFlagScan cmd parents f in
    if negb flagPresent && negb (bool_decide (flagName = EmptyString))
    then [flagName] else []
  else [].

(** [Command.checkRequiredFlags] *)
Definition checkRequiredFlags (cmd : Command) (parents : list Command)
  : option error :=
  let missingFlags := flat_map (missingFlag cmd parents) (Flags cmd) in
  if negb (Nat.eqb (length missingFlags) 0)
  then Some (errRequiredFlags missingFlags)
  else None.

(** *** The names of the flags in use *)

(** [makeFlagNameVisitor]: what visiting the flag named [fname] appends. *)
Definition flagNameVisitor (fname : string) : list string :=
  let nameParts := GoStrings.Split fname "," in
  let name :=
    fold_left
      (fun name part =>
         let part := GoStrings.TrimSpace part in
         if Nat.ltb (String.length name) (String.length part) then part else name)
      nameParts (GoStrings.TrimSpace (hd EmptyString nameParts)) in
  if bool_decide (name = EmptyString) then [] else [name].

(** The removal of duplicates at the end of [LocalFlagNames]: the first
    occurrence of a name is kept. *)
Fixpoint uniqNames (m : gset string) (names : list string) : list string :=
  match names with
  | [] => []
  | name :: rest =>
      if bool_decide (name ∈ m) then uniqNames m rest
      else name :: uniqNames ({[name]} ∪ m) rest
  end.

(** [Command.LocalFlagNames]: a nil flag set is a nil dereference. *)
Definition LocalFlagNames (cmd : Command) : result (list string) :=
  match flagSet cmd with
  | None => Panicked
  | Some fs =>
      let names := flat_map flagNameVisitor (Visit fs) in
      let names := names ++ flat_map (fun f => if IsSet f then Names f else [])
                                     (Flags cmd) in
      Ok (uniqNames ∅ names)
  end.

(** [Command.FlagNames], on the lineage of the command. *)
Fixpoint FlagNames (lineage : list Command) : result (list string) :=
  match lineage with
  | [] => Ok []
  | cmd :: parent =>
      names ← LocalFlagNames cmd;
      match parent with
      | [] => Ok names
      | _ => pnames ← FlagNames parent; Ok (pnames ++ names)
      end
  end.

(** *** Resolution of the sub-command *)

(** [Command.argsWithDefaultCommand] *)
Definition argsWithDefaultCommand (cmd : Command) (oldArgs : list string)
  : list string :=
  if negb (bool_decide (DefaultCommand cmd = EmptyString))
  then [DefaultCommand cmd] ++ oldArgs
  else oldArgs.

(** [Args.First] *)
Definition First (args : list string) : string := hd EmptyString args.

(** Whether the fallback to the default command is taken for the name
    [name]: the values of [isFlagName], [hasDefault],
    [defaultHasSubcommands] and [isDefaultSubcommand] in [Run], combined as
    [Run] combines them. Looking for the sub-commands of a default command
    that is not a sub-command dereferences nil. *)
Definition defaultFallback (cmd : Command) (name : string) (flagNames : list string)
  : result bool :=
  let hasDefault := negb (bool_decide (DefaultCommand cmd = EmptyString)) in
  let isFlagName := checkStringSliceIncludes name flagNames in
  '(isDefaultSubcommand, defaultHasSubcommands) ←
    (if hasDefault then
       match Command_Command cmd (DefaultCommand cmd) with
       | None => Panicked
       | Some dc =>
           Ok (existsb (fun dcSub => checkStringSliceIncludes name (Command_Names dcSub))
                       (Commands dc),
               Nat.ltb 0 (length (Commands dc)))
       end
     else Ok (false, false));
  Ok (isFlagName || (hasDefault && (defaultHasSubcommands && isDefaultSubcommand))).

Section Run.

(** [cmd.SuggestCommandFunc], a user function that may rename the first
    positional argument. *)
Variable SuggestCommandFunc : option (list Command -> string -> string).

(** The part of [Command.Run] that sets [subCmd]: [args] are the positional
    arguments left by the parse and [parents] the ancestors of [cmd]. *)
Definition resolveSubCommand (cmd : Command) (parents : list Command)
  (args : list string) : result (option Command) :=
  match args with
  | _ :: _ =>
      let name := First args in
      let name := match SuggestCommandFunc with
                  | Some suggest => suggest (Commands cmd) name
                  | None => name
                  end in
      match Command_Command cmd name with
      | Some subCmd => Ok (Some subCmd)
      | None =>
          flagNames ← FlagNames (Lineage cmd parents);
          fallback ← defaultFallback cmd name flagNames;
          if fallback : bool then
            let argsWithDefault := argsWithDefaultCommand cmd args in
            if negb (bool_decide (args = argsWithDefault))
            then Ok (Command_Command cmd (First argsWithDefault))
            else Ok None
          else Ok None
      end
  | [] =>
      match parents with
      | [] =>
          if negb (bool_decide (DefaultCommand cmd = EmptyString))
          then Ok (Command_Command cmd (DefaultCommand cmd))
          else Ok None
      | _ => Ok None
      end
  end.

(** *** The hooks and the action *)

(** What [Run] does that can be observed, in order. [handleExitCoder]
    hands the error to the exit handler of the root command and returns it
    as it is; what the handler does with it is not part of the model. *)
Inductive event : Type :=
| EvBefore                                          (* [cmd.Before] is called *)
| EvAction                                          (* [cmd.Action] is called *)
| EvAfter                                           (* [cmd.After] is called *)
| EvShowSubcommandHelp
| EvExitCoder (err : error)                         (* [handleExitCoder] is given [err] *)
| EvFlagAction (fl : Flag)                          (* the action of a flag is run *)
| EvSubCommand (subCmd : Command) (args : list string). (* [subCmd.Run] is called *)

(** [grp.check(cmd)] of a group of mutually exclusive flags, the help
    action that stands in for a nil [Action], the [Run] of a sub-command
    and [FlagSet.Set] of the flag package are not among the sources. *)
Variable checkGroup : list (list Flag) -> option error.
Variable helpCommandAction : hook.
Variable RunSub : Command -> list Command -> list string -> result (option error).
Variable FlagSet_Set : FlagSet -> string -> string -> option error.

(** [runFlagActions] *)
Fixpoint runFlagActions (cmd : Command) (parents : list Command) (flags : list Flag)
  : list event * option error :=
  match flags with
  | [] => ([], None)
  | fl :: rest =>
      if existsb (fun name => fst (Command_IsSet cmd parents name)) (Names fl)
      then match RunAction fl with
           | Some (Some err) => ([EvFlagAction fl], Some err)
           | Some None =>
               let '(tr, r) := runFlagActions cmd parents rest in
               (EvFlagAction fl :: tr, r)
           | None => runFlagActions cmd parents rest
           end
      else runFlagActions cmd parents rest
  end.

(** The first group whose check fails. *)
Fixpoint checkGroups (groups : list (list (list Flag))) : option error :=
  match groups with
  | [] => None
  | grp :: rest =>
      match checkGroup grp with
      | Some err => Some err
      | None => checkGroups rest
      end
  end.

(** [Run] from the check of the required flags to its last line, without
    the deferred call of [After]: the events and the value of [deferErr]
    when the function returns, or a panic. *)
Definition runBody (cmd : Command) (parents : list Command)
  : list event * result (option error) :=
  match checkRequiredFlags cmd parents with
  | Some err => ([EvShowSubcommandHelp], Ok (Some err))
  | None =>
  match checkGroups (MutuallyExclusiveFlags cmd) with
  | Some err => ([EvShowSubcommandHelp], Ok (Some err))
  | None =>
  match (if EnableShellCompletion cmd then None else Before cmd) with
  | Some (Some err) => ([EvBefore; EvExitCoder err], Ok (Some err))
  | before =>
      let trB := match before with Some _ => [EvBefore] | None => [] end in
      let '(trF, ferr) := runFlagActions cmd parents (appliedFlags cmd) in
      match ferr with
      | Some err => (trB ++ trF, Ok (Some err))
      | None =>
          match args ← Args cmd;
                subCmd ← resolveSubCommand cmd parents args;
                Ok (args, subCmd) with
          | Ok (args, Some subCmd) =>
              (trB ++ trF ++ [EvSubCommand subCmd args],
               RunSub subCmd (cmd :: parents) args)
          | Ok (_, None) =>
              match default helpCommandAction (Action cmd) with
              | Some err => (trB ++ trF ++ [EvAction; EvExitCoder err], Ok (Some err))
              | None => (trB ++ trF ++ [EvAction], Ok None)
              end
          | Err e => (trB ++ trF, Err e)
          | Panicked => (trB ++ trF, Panicked)
          end
      end
  end end end.

(** [Run] from the point where the call of [After] is deferred: the
    deferred function runs when the body returns or panics, and merges its
    error into [deferErr]. *)
Definition RunTail (cmd : Command) (parents : list Command)
  : list event * result (option error) :=
  let '(tr, r) := runBody cmd parents in
  match (if EnableShellCompletion cmd then None else After cmd) with
  | None => (tr, r)
  | Some None => (tr ++ [EvAfter], r)
  | Some (Some err) =>
      (tr ++ [EvAfter; EvExitCoder err],
       match r with
       | Ok (Some deferErr) => Ok (Some (newMultiError [deferErr; err]))
       | Ok None => Ok (Some err)
       | other => other
       end)
  end.

(** [Command.Set] *)
Definition Command_Set (cmd : Command) (parents : list Command) (name val : string)
  : option error * option invalidAccess :=
  match lookupFlagSet cmd parents name with
  | (Some fs, call) => (FlagSet_Set fs name val, call)
  | (None, call) => (Some (errString ("no such flag -" +:+ name)), call)
  end.

End Run.

(** *** Persistent flags of the ancestors *)

(** The test [parseFlags] makes before it applies a persistent flag: no
    flag of the flag set has one of the names [flNames]. *)
Definition applyPersistentFlag (fs : FlagSet) (flNames : list string) : bool :=
  forallb (fun fname => negb (existsb (fun name => bool_decide (name = fname)) flNames))
          (VisitAll fs).

(** The loop of [parseFlags] over the flags of one ancestor: [st] is the
    flag set of the command with its applied flags. *)
Fixpoint persistentFlagsOf (st : FlagSet * list Flag) (flags : list Flag)
  : result (FlagSet * list Flag) :=
  match flags with
  | [] => Ok st
  | fl :: rest =>
      if negb (IsPersistent fl) then persistentFlagsOf st rest
      else if negb (applyPersistentFlag (fst st) (Names fl))
      then persistentFlagsOf st rest
      else fs' ← Flag_Apply fl (fst st);
           persistentFlagsOf (fs', snd st ++ [fl]) rest
  end.

(** The loop of [parseFlags] over the ancestors, nearest first. *)
Fixpoint persistentFlags (st : FlagSet * list Flag) (parents : list Command)
  : result (FlagSet * list Flag) :=
  match parents with
  | [] => Ok st
  | pCmd :: rest =>
      st' ← persistentFlagsOf st (Flags pCmd);
      persistentFlags st' rest
  end.

(** [Command.parseFlags] up to the point where the arguments are parsed:
    the flag set the arguments are parsed against and the applied flags. *)
Definition parseFlags (cmd : Command) (parents : list Command)
  : result (FlagSet * list Flag) :=
  fs ← newFlagSet (allFlags cmd);
  let applied := appliedFlags cmd ++ allFlags cmd in
  if SkipFlagParsing cmd then Ok (fs, applied)
  else persistentFlags (fs, applied) parents.

(** ** Reference definitions for the properties of a command *)

(** A flag none of whose names is set. *)
Definition unsetFlag (cmd : Command) (parents : list Command) (f : Flag) : bool :=
  forallb (fun key => negb (fst (Command_IsSet cmd parents (GoStrings.TrimSpace key))))
          (Names f).

(** The last name of a flag, under which it is reported. *)
Definition lastName (f : Flag) : string := default EmptyString (last (Names f)).

(** A required flag that the check reports. *)
Definition reported (cmd : Command) (parents : list Command) (f : Flag) : bool :=
  IsRequired f && unsetFlag cmd parents f &&
  negb (bool_decide (lastName f = EmptyString)).

(** The error [Run] returns when its body returns [err] and the deferred
    [After] returns [after]. *)
Definition mergedError (err : error) (after : hook) : error :=
  match after with
  | Some afterErr => newMultiError [err; afterErr]
  | None => err
  end.

(** The events of the deferred call of [After]. *)
Definition afterEvents (after : hook) : list event :=
  match after with
  | Some afterErr => [EvAfter; EvExitCoder afterErr]
  | None => [EvAfter]
  end.

(** ** Examples *)

Definition disabledSplitting : SliceSettings :=
  {| defaultSliceFlagSeparator := ","; disableSliceFlagSeparator := true |}.

Definition intervalsFlag : SliceFlag string :=
  {| sfName := "intervals"; sfAliases := ["i"];
     sfValue := ["1"; "2"; "5"]; sfSources := ["APP_INTERVALS"] |}.

Definition intervalsEnv : gmap string string := {[ "APP_INTERVALS" := "20,30,40" ]}.

(** A command as it is declared, with a name and nothing else. *)
Definition namedCommand (name : string) : Command :=
  {| Name := name; Aliases := []; DefaultCommand := EmptyString; Commands := [];
     Flags := []; MutuallyExclusiveFlags := [];
     Before := None; After := None; Action := Some None;
     InvalidFlagAccessHandler := None; SkipFlagParsing := false;
     EnableShellCompletion := false; appliedFlags := [];
     flagSet := None |}.

Definition withFlags (cmd : Command) (flags : list Flag) : Command :=
  {| Name := Name cmd; Aliases := Aliases cmd; DefaultCommand := DefaultCommand cmd;
     Commands := Commands cmd; Flags := flags;
     MutuallyExclusiveFlags := MutuallyExclusiveFlags cmd;
     Before := Before cmd; After := After cmd; Action := Action cmd;
     InvalidFlagAccessHandler := InvalidFlagAccessHandler cmd;
     SkipFlagParsing := SkipFlagParsing cmd;
     EnableShellCompletion := EnableShellCompletion cmd;
     appliedFlags := appliedFlags cmd; flagSet := flagSet cmd |}.

(** The command once its flags are parsed, with no flag on the command
    line. *)
Definition afterParse (cmd : Command) (parents : list Command) : Command :=
  match parseFlags cmd parents with
  | Ok (fs, applied) =>
      {| Name := Name cmd; Aliases := Aliases cmd; DefaultCommand := DefaultCommand cmd;
         Commands := Commands cmd; Flags := Flags cmd;
         MutuallyExclusiveFlags := MutuallyExclusiveFlags cmd;
         Before := Before cmd; After := After cmd; Action := Action cmd;
         InvalidFlagAccessHandler := InvalidFlagAccessHandler cmd;
         SkipFlagParsing := SkipFlagParsing cmd;
         EnableShellCompletion := EnableShellCompletion cmd;
         appliedFlags := applied; flagSet := Some fs |}
  | _ => cmd
  end.

Definition withCommands (cmd : Command) (defaultCommand : string)
  (commands : list Command) : Command :=
  {| Name := Name cmd; Aliases := Aliases cmd; DefaultCommand := defaultCommand;
     Commands := commands; Flags := Flags cmd;
     MutuallyExclusiveFlags := MutuallyExclusiveFlags cmd;
     Before := Before cmd; After := After cmd; Action := Action cmd;
     InvalidFlagAccessHandler := InvalidFlagAccessHandler cmd;
     SkipFlagParsing := SkipFlagParsing cmd;
     EnableShellCompletion := EnableShellCompletion cmd;
     appliedFlags := appliedFlags cmd; flagSet := flagSet cmd |}.

Definition withHooks (cmd : Command) (before after : option hook) (action : hook)
  : Command :=
  {| Name := Name cmd; Aliases := Aliases cmd; DefaultCommand := DefaultCommand cmd;
     Commands := Commands cmd; Flags := Flags cmd;
     MutuallyExclusiveFlags := MutuallyExclusiveFlags cmd;
     Before := before; After := after; Action := Some action;
     InvalidFlagAccessHandler := InvalidFlagAccessHandler cmd;
     SkipFlagParsing := SkipFlagParsing cmd;
     EnableShellCompletion := EnableShellCompletion cmd;
     appliedFlags := appliedFlags cmd; flagSet := flagSet cmd |}.

Definition withHandler (cmd : Command) (h : nat) : Command :=
  {| Name := Name cmd; Aliases := Aliases cmd; DefaultCommand := DefaultCommand cmd;
     Commands := Commands cmd; Flags := Flags cmd;
     MutuallyExclusiveFlags := MutuallyExclusiveFlags cmd;
     Before := Before cmd; After := After cmd; Action := Action cmd;
     InvalidFlagAccessHandler := Some h;
     SkipFlagParsing := SkipFlagParsing cmd;
     EnableShellCompletion := EnableShellCompletion cmd;
     appliedFlags := appliedFlags cmd; flagSet := flagSet cmd |}.

(** A string flag with the given names and value, neither required nor
    persistent, without sources. *)
Definition stringFlag (names : list string) (val : string) : Flag :=
  {| Names := names; IsRequired := false; IsPersistent := false; IsSet := false;
     applyErr := None; RunAction := None; flagValue := VString val |}.

Definition persistent (f : Flag) : Flag :=
  {| Names := Names f; IsRequired := IsRequired f; IsPersistent := true;
     IsSet := IsSet f; applyErr := applyErr f; RunAction := RunAction f;
     flagValue := flagValue f |}.

Definition required (f : Flag) : Flag :=
  {| Names := Names f; IsRequired := true; IsPersistent := IsPersistent f;
     IsSet := IsSet f; applyErr := applyErr f; RunAction := RunAction f;
     flagValue := flagValue f |}.

(** An application with two persistent flags and a flag of its own, and a
    sub-command that declares a flag named as one of the persistent ones. *)
Definition verboseFlag : Flag := persistent (stringFlag ["verbose"; "v"] "app").
Definition appConfigFlag : Flag := persistent (stringFlag ["config"; "c"] "app").
Definition dirFlag : Flag := stringFlag ["dir"] "app".
Definition serveConfigFlag : Flag := stringFlag ["config"] "serve".

Definition appCommand : Command :=
  withFlags (namedCommand "app") [verboseFlag; appConfigFlag; dirFlag].

Definition serveCommand : Command :=
  withFlags (namedCommand "serve") [serveConfigFlag].

(** An application whose default command is the sub-command [run], which
    has the sub-command [fast]; and one whose default command names no
    sub-command. *)
Definition runCommand : Command :=
  withCommands (namedCommand "run") EmptyString [namedCommand "fast"].

Definition defaultApp : Command :=
  afterParse (withCommands (namedCommand "app") "run" [runCommand; namedCommand "stop"]) [].

Definition danglingDefaultApp : Command :=
  afterParse (withCommands (namedCommand "app") "missing" [namedCommand "stop"]) [].

(** A command with a required flag whose alias is the empty string, and
    one with two required flags; no flag is set. *)
Definition emptyAliasCommand : Command :=
  afterParse (withFlags (namedCommand "app") [required (stringFlag ["foo"; ""] "")]) [].

Definition twoRequiredCommand : Command :=
  afterParse
    (withFlags (namedCommand "app")
       [required (stringFlag ["first"; "f"] ""); stringFlag ["other"] "";
        required (stringFlag ["second"] "")]) [].

(** A command whose [Before] fails and whose [After] succeeds. *)
Definition beforeFailsCommand : Command :=
  afterParse (withHooks (namedCommand "app") (Some (Some (errString "before")))
                        (Some None) None) [].

(** A command whose action fails and whose [After] fails as well. *)
Definition actionFailsCommand : Command :=
  afterParse (withHooks (namedCommand "app") (Some None)
                        (Some (Some (errString "after"))) (Some (errString "action"))) [].

(** A sub-command whose parent has a handler for invalid flag accesses. *)
Definition handlerApp : Command := afterParse (withHandler (namedCommand "app") 7) [].
Definition plainSub : Command := afterParse (namedCommand "sub") [handlerApp].


(** An element parser for the examples: a string of decimal digits that is
    not empty; the error is the text that does not parse. *)
Fixpoint decimalDigits (acc : nat) (s : string) : option nat :=
  match s with
  | EmptyString => Some acc
  | String c s' =>
      match Ascii.is_nat c with
      | Some d => decimalDigits (10 * acc + d) s'
      | None => None
      end
  end.

Definition decimalValueSet (s : string) : string + nat :=
  match s with
  | EmptyString => inl s
  | _ => match decimalDigits 0 s with
         | Some n => inr n
         | None => inl s
         end
  end.


(** The names [LocalFlagNames] gives for a command that has a flag set. *)
Definition localNamesOf (cmd : Command) : list string :=
  match LocalFlagNames cmd with
  | Ok names => names
  | _ => []
  end.

(** An application with a sub-command that has two sub-commands answering
    to the same name. *)
Definition twinsCommand : Command :=
  withCommands (namedCommand "app") EmptyString
    [withCommands (namedCommand "first") EmptyString [namedCommand "inner"];
     namedCommand "other";
     {| Name := "second"; Aliases := ["first"]; DefaultCommand := EmptyString;
        Commands := []; Flags := []; MutuallyExclusiveFlags := [];
        Before := None; After := None; Action := Some None;
        InvalidFlagAccessHandler := None; SkipFlagParsing := false;
        EnableShellCompletion := false; appliedFlags := []; flagSet := None |}].


(** The application and its sub-command [serve] once their flags are
    parsed. *)
Definition appParsed : Command := afterParse appCommand [].
Definition serveParsed : Command := afterParse serveCommand [appParsed].

(** The flag set of a command, empty for a command without one. *)
Definition flagSetOf (cmd : Command) : FlagSet := default emptyFlagSet (flagSet cmd).

(** A command with [EnableShellCompletion] on, and one that skips the
    parsing of its flags. *)
Definition withShellCompletion (cmd : Command) : Command :=
  {| Name := Name cmd; Aliases := Aliases cmd; DefaultCommand := DefaultCommand cmd;
     Commands := Commands cmd; Flags := Flags cmd;
     MutuallyExclusiveFlags := MutuallyExclusiveFlags cmd;
     Before := Before cmd; After := After cmd; Action := Action cmd;
     InvalidFlagAccessHandler := InvalidFlagAccessHandler cmd;
     SkipFlagParsing := SkipFlagParsing cmd;
     EnableShellCompletion := true;
     appliedFlags := appliedFlags cmd; flagSet := flagSet cmd |}.

Definition withSkipFlagParsing (cmd : Command) : Command :=
  {| Name := Name cmd; Aliases := Aliases cmd; DefaultCommand := DefaultCommand cmd;
     Commands := Commands cmd; Flags := Flags cmd;
     MutuallyExclusiveFlags := MutuallyExclusiveFlags cmd;
     Before := Before cmd; After := After cmd; Action := Action cmd;
     InvalidFlagAccessHandler := InvalidFlagAccessHandler cmd;
     SkipFlagParsing := true;
     EnableShellCompletion := EnableShellCompletion cmd;
     appliedFlags := appliedFlags cmd; flagSet := flagSet cmd |}.

(** A flag one of whose names is set, as [runFlagActions] tests it. *)
Definition flagIsSet (cmd : Command) (parents : list Command) (fl : Flag) : bool :=
  existsb (fun name => fst (Command_IsSet cmd parents name)) (Names fl).

(** The flags whose action [runFlagActions] is to run: those that are set
    and have an action. *)
Definition actionsDue (cmd : Command) (parents : list Command) (flags : list Flag)
  : list Flag :=
  List.filter (fun fl => flagIsSet cmd parents fl &&
                         match RunAction fl with Some _ => true | None => false end)
              flags.

(** A flag that a source has set, with an action that returns [outcome]. *)
Definition actionFlag (name : string) (outcome : option error) : Flag :=
  {| Names := [name]; IsRequired := false; IsPersistent := false; IsSet := true;
     applyErr := None; RunAction := Some outcome; flagValue := VString name |}.

(** A command with three flags that are set and have an action, the third of
    which fails, and a flag that is not set. *)
Definition actionsCommand : Command :=
  afterParse
    (withFlags (namedCommand "app")
       [actionFlag "one" None; stringFlag ["two"] "x";
        actionFlag "three" (Some (errString "three")); actionFlag "four" None]) [].

(** [Command.FullName]: the full name of the parent, if there is one, and
    the name of the command, joined by a space. *)
Fixpoint FullName (cmd : Command) (parents : list Command) : string :=
  let namePath := match parents with
                  | [] => []
                  | parent :: rest => [] ++ [FullName parent rest]
                  end in
  GoStrings.Join (namePath ++ [Name cmd]) " ".

(** [Command.Root] *)
Fixpoint Root (cmd : Command) (parents : list Command) : Command :=
  match parents with
  | [] => cmd
  | parent :: rest => Root parent rest
  end.

(** A command with hooks that is run for shell completion, and a
    sub-command that skips the parsing of its flags. *)
Definition shellCompletionCommand : Command :=
  afterParse (withShellCompletion
                (withHooks (namedCommand "app") (Some None) (Some None) None)) [].

Definition skippingCommand : Command := withSkipFlagParsing serveCommand.

(** An application with an [After] hook that fails and the sub-command
    [stop], once its flags are parsed with the argument [stop]. *)
Definition stoppingApp : Command :=
  match afterParse (withCommands
                      (withHooks (namedCommand "app") None
                                 (Some (Some (errString "after"))) None)
                      EmptyString [namedCommand "stop"]) [] with
  | {| Name := name; Aliases := aliases; DefaultCommand := dc; Commands := commands;
       Flags := flags; MutuallyExclusiveFlags := groups;
       Before := before; After := after; Action := action;
       InvalidFlagAccessHandler := h; SkipFlagParsing := skip;
       EnableShellCompletion := completion; appliedFlags := applied;
       flagSet := fs |} =>
      {| Name := name; Aliases := aliases; DefaultCommand := dc; Commands := commands;
         Flags := flags; MutuallyExclusiveFlags := groups;
         Before := before; After := after; Action := action;
         InvalidFlagAccessHandler := h; SkipFlagParsing := skip;
         EnableShellCompletion := completion; appliedFlags := applied;
         flagSet := (fun s => {| formal := formal s; actual := actual s;
                                 fsArgs := ["stop"; "now"] |}) <$> fs |}
  end.

(** ** The context of a command *)

(** [Context]: the command, which may be nil, whether the run is for shell
    completion, and the flag set, which may be nil. As for commands, the
    [parent] pointer is kept outside the record: a context is used together
    with the list of its ancestors, nearest first. *)
Record Context : Type := mkContext {
  ctxCommand : option Command;
  shellComplete : bool;
  ctxFlagSet : option FlagSet
}.

(** [&Command{}] *)
Definition zeroCommand : Command :=
  {| Name := EmptyString; Aliases := []; DefaultCommand := EmptyString; Commands := [];
     Flags := []; MutuallyExclusiveFlags := [];
     Before := None; After := None; Action := None;
     InvalidFlagAccessHandler := None; SkipFlagParsing := false;
     EnableShellCompletion := false; appliedFlags := [];
     flagSet := None |}.

(** [NewContext]: the new context, and the ancestors, of which the parent
    is given an empty flag set when it has none. *)
Definition NewContext (cmd : option Command) (set : option FlagSet)
  (parents : list Context) : Context * list Context :=
  let cCtx := {| ctxCommand := cmd; shellComplete := false; ctxFlagSet := set |} in
  let '(cCtx, parents) :=
    match parents with
    | parent :: rest =>
        let cCtx := {| ctxCommand := ctxCommand cCtx;
                       shellComplete := shellComplete parent;
                       ctxFlagSet := ctxFlagSet cCtx |} in
        let parent :=
          match ctxFlagSet parent with
          | None => {| ctxCommand := ctxCommand parent;
                       shellComplete := shellComplete parent;
                       ctxFlagSet := Some emptyFlagSet |}
          | Some _ => parent
          end in
        (cCtx, parent :: rest)
    | [] => (cCtx, [])
    end in
  let cCtx :=
    match ctxCommand cCtx with
    | None => {| ctxCommand := Some zeroCommand; shellComplete := shellComplete cCtx;
                 ctxFlagSet := ctxFlagSet cCtx |}
    | Some _ => cCtx
    end in
  (cCtx, parents).

(** [Context.NumFlags]: a nil flag set is a nil dereference. *)
Definition NumFlags (cCtx : Context) : result nat :=
  match ctxFlagSet cCtx with
  | Some fs => Ok (size (actual fs))
  | None => Panicked
  end.

(** [Context.Lineage] *)
Definition Context_Lineage (cCtx : Context) (parents : list Context) : list Context :=
  cCtx :: parents.

(** [Context.lookupFlag], on the lineage of the context. *)
Definition Context_lookupFlag (lineage : list Context) (name : string) : option Flag :=
  find (fun f => existsb (fun n => bool_decide (n = name)) (Names f))
       (flat_map (fun c => match ctxCommand c with
                           | Some cmd => Flags cmd
                           | None => []
                           end) lineage).

(** A call a context makes of an [InvalidFlagAccessHandler]: the handler,
    the context it is given, and the flag name. *)
Record contextInvalidAccess : Type := mkContextInvalidAccess {
  ctxHandler : nat;
  handlerContext : Context;
  ctxAccessed : string
}.

(** [Context.onInvalidFlag], on the lineage of the context. *)
Fixpoint Context_onInvalidFlag (lineage : list Context) (name : string)
  : option contextInvalidAccess :=
  match lineage with
  | [] => None
  | cCtx :: parent =>
      match ctxCommand cCtx ≫= InvalidFlagAccessHandler with
      | Some h => Some {| ctxHandler := h; handlerContext := cCtx; ctxAccessed := name |}
      | None => Context_onInvalidFlag parent name
      end
  end.

(** The loop of [Context.lookupFlagSet] over the lineage. *)
Fixpoint Context_lookupFlagSetIn (lineage : list Context) (name : string)
  : option FlagSet :=
  match lineage with
  | [] => None
  | c :: rest =>
      match ctxFlagSet c with
      | None => Context_lookupFlagSetIn rest name
      | Some fs =>
          match Lookup fs name with
          | Some _ => Some fs
          | None => Context_lookupFlagSetIn rest name
          end
      end
  end.

(** [Context.lookupFlagSet] *)
Definition Context_lookupFlagSet (lineage : list Context) (name : string)
  : option FlagSet * option contextInvalidAccess :=
  match Context_lookupFlagSetIn lineage name with
  | Some fs => (Some fs, None)
  | None => (None, Context_onInvalidFlag lineage name)
  end.

(** [Context.IsSet] *)
Definition Context_IsSet (lineage : list Context) (name : string)
  : bool * option contextInvalidAccess :=
  match Context_lookupFlagSet lineage name with
  | (Some fs, call) =>
      if existsb (fun fname => bool_decide (fname = name)) (Visit fs)
      then (true, call)
      else match Context_lookupFlag lineage name with
           | None => (false, call)
           | Some f => (IsSet f, call)
           end
  | (None, call) => (false, call)
  end.

(** [Context.Value]: nil is [None]. *)
Definition Context_Value (lineage : list Context) (name : string)
  : option anyValue * option contextInvalidAccess :=
  match Context_lookupFlagSet lineage name with
  | (Some fs, call) => (flagValue <$> Lookup fs name, call)
  | (None, call) => (None, call)
  end.

(** [Context.LocalFlagNames]: a nil flag set is a nil dereference. *)
Definition Context_LocalFlagNames (cCtx : Context) : result (list string) :=
  match ctxFlagSet cCtx with
  | None => Panicked
  | Some fs =>
      let names := flat_map flagNameVisitor (Visit fs) in
      let names :=
        match ctxCommand cCtx with
        | Some cmd => names ++ flat_map (fun f => if IsSet f then Names f else [])
                                        (Flags cmd)
        | None => names
        end in
      Ok (uniqNames ∅ names)
  end.

(** [Context.FlagNames], on the lineage of the context. *)
Fixpoint Context_FlagNames (lineage : list Context) : result (list string) :=
  match lineage with
  | [] => Ok []
  | pCtx :: rest =>
      local ← Context_LocalFlagNames pCtx;
      names ← Context_FlagNames rest;
      Ok (local ++ names)
  end.

(** [Context.checkRequiredFlags] *)
Definition Context_checkRequiredFlags (lineage : list Context) (flags : list Flag)
  : option error :=
  let missingFlags :=
    flat_map
      (fun f =>
         if IsRequired f then
           let '(flagName, flagPresent) :=
             fold_left
               (fun (st : string * bool) key =>
                  (key, if fst (Context_IsSet lineage (GoStrings.TrimSpace key))
                        then true else snd st))
               (Names f) (EmptyString, false) in
           if negb flagPresent && negb (bool_decide (flagName = EmptyString))
           then [flagName] else []
         else [])
      flags in
  if negb (Nat.eqb (length missingFlags) 0)
  then Some (errRequiredFlags missingFlags)
  else None.

(** The context of a command whose flags are parsed. *)
Definition contextOf (cmd : Command) : Context :=
  {| ctxCommand := Some cmd; shellComplete := EnableShellCompletion cmd;
     ctxFlagSet := flagSet cmd |}.

(** What a call of a handler shows: the handler, the command of the
    context or the command it is given, and the flag name. *)
Definition contextCall (call : contextInvalidAccess) : nat * option Command * string :=
  (ctxHandler call, ctxCommand (handlerContext call), ctxAccessed call).

Definition commandCall (call : invalidAccess) : nat * option Command * string :=
  (handler call, Some (handlerOf call), accessed call).

(** The application and [serve] with their flags set by a source, but for
    the flag [dir], once their flags are parsed. *)
Definition sourced (f : Flag) : Flag :=
  {| Names := Names f; IsRequired := IsRequired f; IsPersistent := IsPersistent f;
     IsSet := true; applyErr := applyErr f; RunAction := RunAction f;
     flagValue := flagValue f |}.

Definition sourcedApp : Command :=
  afterParse (withFlags (namedCommand "app") [sourced verboseFlag; dirFlag]) [].

Definition sourcedServe : Command :=
  afterParse (withFlags (namedCommand "serve") [sourced serveConfigFlag]) [sourcedApp].

(** The stages of a run: the [Before] hook, the action of the command or
    the run of a sub-command, and the [After] hook. *)
Inductive stage : Type := StBefore | StMain | StAfter.

Definition stageOf (e : event) : option stage :=
  match e with
  | EvBefore => Some StBefore
  | EvAction | EvSubCommand _ _ => Some StMain
  | EvAfter => Some StAfter
  | _ => None
  end.

(** An event of [Run] before the action and the sub-command: the
    [Before] hook or the action of a flag. *)
Definition preliminary (e : event) : bool :=
  match e with
  | EvBefore | EvFlagAction _ => true
  | _ => false
  end.

(** * Properties *)

(** ** Strings *)

Lemma HasPrefix_app (p s : string) : GoStrings.HasPrefix (p +:+ s) p = true.
Proof.
  unfold GoStrings.HasPrefix. induction p as [|c p IH]; simpl.
  - by destruct s.
  - destruct (ascii_dec c c); [exact IH | done].
Qed.

Lemma drop_app (p s : string) : GoStrings.drop (String.length p) (p +:+ s) = s.
Proof. induction p as [|c p IH]; simpl; [by destruct s | exact IH]. Qed.

Lemma Replace1_prefix (s old : string) :
  GoStrings.HasPrefix s old = true ->
  GoStrings.Replace1 s old = GoStrings.drop (String.length old) s.
Proof. intros H. destruct s; cbn [GoStrings.Replace1]; by rewrite H. Qed.

Lemma Replace1_app (p s : string) : GoStrings.Replace1 (p +:+ s) p = s.
Proof. rewrite Replace1_prefix by apply HasPrefix_app. apply drop_app. Qed.

(** ** The collection value cell *)

Section SliceBaseFacts.

Context {T E : Type}.
Variable zero : T.
Variable valueSet : string -> E + T.
Variable jsonMarshal : list T -> string.
Variable jsonUnmarshal : string -> option (list T).
Variable slPfx : string.
Variable fmtSlice : list T -> string.

Local Abbreviation Set_in g := (Set' valueSet jsonUnmarshal slPfx g).
Local Abbreviation setAll_in g := (setAll valueSet jsonUnmarshal slPfx g).
Local Abbreviation tokens := (setTokens valueSet).
Local Abbreviation parsed := (parseTokens valueSet).

Lemma cleared_Create (d : list T) :
  cleared (Create zero d) = {| slice := []; hasBeenSet := true; value := Some zero |}.
Proof. reflexivity. Qed.

Lemma Set_cleared g (i : SliceBase T) (v : string) :
  Set_in g i v = Set_in g (cleared i) v.
Proof. unfold Set', cleared. destruct (hasBeenSet i) eqn:Hs; [by rewrite Hs|done]. Qed.

(** The first [Set] on a created cell does not see the default. *)
Lemma Set_Create_default g (d d' : list T) (v : string) :
  Set_in g (Create zero d) v = Set_in g (Create zero d') v.
Proof. by rewrite (Set_cleared g (Create zero d)), (Set_cleared g (Create zero d')). Qed.

Lemma parseTokens_app (a b : list string) :
  parsed (a ++ b) = la ← parsed a; lb ← parsed b; Some (la ++ lb).
Proof.
  induction a as [|s a IH]; simpl.
  - by destruct (parsed b).
  - destruct (valueSet (GoStrings.TrimSpace s)); [done|].
    rewrite IH. destruct (parsed a); simpl; [|done].
    by destruct (parsed b).
Qed.

Lemma setTokens_parsed (toks : list string) : forall (i : SliceBase T) (l : list T),
  is_Some (value i) ->
  parsed toks = Some l ->
  exists i', tokens i toks = (i', Nil) /\ slice i' = slice i ++ l /\
             hasBeenSet i' = hasBeenSet i /\ is_Some (value i').
Proof.
  induction toks as [|s toks IH]; intros i l [x Hx] Hp; simpl in *.
  - injection Hp as <-. exists i. rewrite app_nil_r. eauto.
  - rewrite Hx. destruct (valueSet (GoStrings.TrimSpace s)) as [e|t]; [done|].
    destruct (parsed toks) as [l'|] eqn:Hl; [|done]. injection Hp as <-.
    destruct (IH {| slice := slice i ++ [t]; hasBeenSet := hasBeenSet i;
                    value := Some t |} l') as (i' & H1 & H2 & H3 & H4);
      [by eexists | done |].
    exists i'. simpl in *. by rewrite H1, H2, <- app_assoc.
Qed.

(** A [Set] of a value that is not serialized and whose tokens parse: the
    elements are appended, after the contents were dropped if the cell had
    not been set. *)
Lemma Set_parsed g (i : SliceBase T) (v : string) (l : list T) :
  is_Some (value i) ->
  GoStrings.HasPrefix v slPfx = false ->
  parsed (flagSplitMultiValues g v) = Some l ->
  exists i', Set_in g i v = (i', Nil) /\
             slice i' = (if hasBeenSet i then slice i else []) ++ l /\
             hasBeenSet i' = true /\ is_Some (value i').
Proof.
  intros Hv Hp Hl. unfold Set'. rewrite Hp.
  destruct (setTokens_parsed (flagSplitMultiValues g v) (cleared i) l)
    as (i' & H1 & H2 & H3 & H4).
  - unfold cleared. by destruct (hasBeenSet i).
  - done.
  - exists i'. rewrite H1, H2, H3. unfold cleared.
    by destruct (hasBeenSet i) eqn:Hs.
Qed.

Lemma setAll_parsed g (vals : list string) : forall (i : SliceBase T) (l : list T),
  is_Some (value i) ->
  hasBeenSet i = true ->
  Forall (fun v => GoStrings.HasPrefix v slPfx = false) vals ->
  parsed (flat_map (flagSplitMultiValues g) vals) = Some l ->
  exists i', setAll_in g i vals = (i', Nil) /\ slice i' = slice i ++ l.
Proof.
  induction vals as [|v vals IH]; intros i l Hv Hs Hall Hl; simpl in *.
  - injection Hl as <-. exists i. by rewrite app_nil_r.
  - inversion Hall as [|? ? Hp Hall']; subst.
    rewrite parseTokens_app in Hl.
    destruct (parsed (flagSplitMultiValues g v)) as [la|] eqn:Ha; [|done].
    simpl in Hl.
    destruct (parsed (flat_map (flagSplitMultiValues g) vals)) as [lb|] eqn:Hb; [|done].
    injection Hl as <-.
    destruct (Set_parsed g i v la Hv Hp Ha) as (i1 & H1 & H2 & H3 & H4).
    rewrite H1, Hs in *.
    destruct (IH i1 lb H4 H3 Hall' eq_refl) as (i' & H5 & H6).
    exists i'. by rewrite H5, H6, H2, <- app_assoc.
Qed.

(** A parse that starts from a created cell: when the occurrences are not
    serialized and parse, the cell ends with their elements. *)
Lemma setAll_Create_parsed g (d : list T) (v : string) (rest : list string)
    (l : list T) :
  Forall (fun w => GoStrings.HasPrefix w slPfx = false) (v :: rest) ->
  parsed (flat_map (flagSplitMultiValues g) (v :: rest)) = Some l ->
  exists i', setAll_in g (Create zero d) (v :: rest) = (i', Nil) /\ slice i' = l.
Proof.
  intros Hall Hl. inversion Hall as [|? ? Hp Hall']; subst.
  simpl in Hl. rewrite parseTokens_app in Hl.
  destruct (parsed (flagSplitMultiValues g v)) as [la|] eqn:Ha; [|done].
  simpl in Hl.
  destruct (parsed (flat_map (flagSplitMultiValues g) rest)) as [lb|] eqn:Hb; [|done].
  injection Hl as <-.
  destruct (Set_parsed g (Create zero d) v la) as (i & H1 & H2 & H3 & H4);
    [by eexists | done | done |].
  destruct (setAll_parsed g rest i lb H4 H3 Hall' Hb) as (i' & H5 & H6).
  exists i'. simpl. by rewrite H1, H5, H6, H2.
Qed.

(** C2: in a cell created with a declared default, the first [Set] of a
    parse drops the default before it appends, and the later [Set] calls
    append. Whatever the default, the outcome of the first [Set] is the one
    on a cell without default, for a cell made by [Create] and for one
    made by [NewSliceBase]; and when the occurrences of the flag are not
    serialized and their tokens parse, the first [Set] leaves the elements
    [la] of the first occurrence alone, the later calls append the
    elements [lb] of the other occurrences, and the cell ends with the
    elements of the command line in order and nothing of the default. *)
Theorem first_set_replaces_default g (d : list T) (v : string)
    (rest : list string) (l : list T) :
  Forall (fun w => GoStrings.HasPrefix w slPfx = false) (v :: rest) ->
  parsed (flat_map (flagSplitMultiValues g) (v :: rest)) = Some l ->
  Set_in g (Create zero d) v = Set_in g (Create zero []) v /\
  Set_in g (NewSliceBase d) v = Set_in g (NewSliceBase []) v /\
  exists i i' la lb,
    parsed (flagSplitMultiValues g v) = Some la /\
    parsed (flat_map (flagSplitMultiValues g) rest) = Some lb /\
    Set_in g (Create zero d) v = (i, Nil) /\ slice i = la /\
    setAll_in g i rest = (i', Nil) /\ slice i' = la ++ lb /\
    setAll_in g (Create zero d) (v :: rest) = (i', Nil) /\ slice i' = l.
Proof.
  intros Hall Hl. split; [apply Set_Create_default|].
  split; [by rewrite (Set_cleared g (NewSliceBase d)), (Set_cleared g (NewSliceBase []))|].
  inversion Hall as [|? ? Hp Hall']; subst.
  simpl in Hl. rewrite parseTokens_app in Hl.
  destruct (parsed (flagSplitMultiValues g v)) as [la|] eqn:Ha; [|done].
  simpl in Hl.
  destruct (parsed (flat_map (flagSplitMultiValues g) rest)) as [lb|] eqn:Hb; [|done].
  injection Hl as <-.
  destruct (Set_parsed g (Create zero d) v la) as (i & H1 & H2 & H3 & H4);
    [by eexists | done | done |].
  simpl in H2. subst la.
  destruct (setAll_parsed g rest i lb H4 H3 Hall' Hb) as (i' & H5 & H6).
  exists i, i', (slice i), lb. simpl. by rewrite H1, H5, H6.
Qed.

(** C7: [Set] of what [Serialize] gives for a cell [c1] leaves in any cell
    [c2] the contents of [c1], so that the two are formatted alike,
    whatever [c2] held and whether it had been set; the elements of [c1]
    are valid when JSON gives them back. *)
Theorem serialize_set_roundtrip g (c1 c2 : SliceBase T) :
  jsonUnmarshal (jsonMarshal (slice c1)) = Some (slice c1) ->
  let r := Set_in g c2 (Serialize jsonMarshal slPfx c1) in
  r.2 = Nil /\
  Value r.1 = Value c1 /\
  String_ fmtSlice r.1 = String_ fmtSlice c1.
Proof.
  intros Hj. unfold Set', Serialize. simpl.
  rewrite HasPrefix_app, Replace1_app, Hj. simpl.
  by unfold String_, Value.
Qed.

(** C9: a value that begins with the reserved prefix is taken as a
    serialized slice whether splitting is disabled or not: the outcome of
    [Set] is the same under any two settings, no error is returned, and
    when the rest of the value decodes, the decoded slice becomes the
    contents whatever the cell held. Only a value without the prefix goes
    through the splitting policy: its tokens are those of
    [flagSplitMultiValues]. *)
Theorem serialized_prefix_ignores_separator g g' (i : SliceBase T) (v : string) :
  GoStrings.HasPrefix v slPfx = true ->
  Set_in g i v = Set_in g' i v /\
  (Set_in g i v).2 = Nil /\
  hasBeenSet (Set_in g i v).1 = true /\
  (forall l, jsonUnmarshal (GoStrings.Replace1 v slPfx) = Some l ->
             slice (Set_in g i v).1 = l) /\
  (forall w, GoStrings.HasPrefix w slPfx = false ->
             Set_in g i w = tokens (cleared i) (flagSplitMultiValues g w)).
Proof.
  intros Hp. unfold Set'. rewrite Hp. simpl. repeat split.
  - intros l ->. done.
  - intros w ->. unfold cleared. by destruct (hasBeenSet i).
Qed.


End SliceBaseFacts.

(** ** The string slice of the tests *)

(** A default of 9 and 2 with 10 and 20 on the command line. *)
Lemma first_set_replaces_default_witness :
  Forall (fun w => GoStrings.HasPrefix w "sl:::" = false) ["10"; "20"] /\
  parseTokens stringValueSet
    (flat_map (flagSplitMultiValues commaSeparated) ["10"; "20"]) = Some ["10"; "20"] /\
  exists i',
    setAll stringValueSet jsonUnmarshalStrings "sl:::" commaSeparated
      (Create "" ["9"; "2"]) ["10"; "20"] = (i', Nil) /\
    slice i' = ["10"; "20"].
Proof.
  assert (H1 : Forall (fun w => GoStrings.HasPrefix w "sl:::" = false) ["10"; "20"])
    by (repeat constructor).
  assert (H2 : parseTokens stringValueSet
                 (flat_map (flagSplitMultiValues commaSeparated) ["10"; "20"])
               = Some ["10"; "20"]) by reflexivity.
  split; [exact H1|]. split; [exact H2|].
  destruct (first_set_replaces_default "" stringValueSet jsonUnmarshalStrings "sl:::"
              commaSeparated ["9"; "2"] "10" ["20"] ["10"; "20"] H1 H2)
    as (_ & _ & i & i' & la & lb & _ & _ & _ & _ & _ & _ & Hall & Hs).
  exists i'. split; [exact Hall | exact Hs].
Defined.

(** The round trip of the test: a and b serialized, set into a cell that
    holds c and d. *)
Lemma serialize_set_roundtrip_witness :
  jsonUnmarshalStrings (jsonMarshalStrings ["a"; "b"]) = Some ["a"; "b"] /\
  String_ fmtStrings
    (Set' stringValueSet jsonUnmarshalStrings "sl:::" commaSeparated
       (NewSliceBase ["c"; "d"])
       (Serialize jsonMarshalStrings "sl:::" (NewSliceBase ["a"; "b"]))).1
  = String_ fmtStrings (NewSliceBase ["a"; "b"]).
Proof.
  split; [reflexivity|].
  apply (serialize_set_roundtrip stringValueSet jsonMarshalStrings jsonUnmarshalStrings
           "sl:::" fmtStrings commaSeparated
           (NewSliceBase ["a"; "b"]) (NewSliceBase ["c"; "d"]) eq_refl).
Defined.

(** A serialized slice set with splitting disabled and with splitting on a
    comma: the element that holds a comma comes back whole either way. *)
Lemma serialized_prefix_ignores_separator_witness :
  let v := "sl:::" +:+ jsonMarshalStrings ["a,b"; "c"] in
  let i := Create "" ["x"] in
  GoStrings.HasPrefix v "sl:::" = true /\
  Set' stringValueSet jsonUnmarshalStrings "sl:::" disabledSplitting i v
  = Set' stringValueSet jsonUnmarshalStrings "sl:::" commaSeparated i v /\
  slice (Set' stringValueSet jsonUnmarshalStrings "sl:::" disabledSplitting i v).1
  = ["a,b"; "c"].
Proof.
  intros v i.
  assert (H : GoStrings.HasPrefix v "sl:::" = true) by reflexivity.
  destruct (serialized_prefix_ignores_separator stringValueSet jsonUnmarshalStrings
              "sl:::" disabledSplitting commaSeparated i v H)
    as (Heq & _ & _ & Hl & _).
  split; [exact H|]. split; [exact Heq|].
  apply Hl. reflexivity.
Defined.


(** ** Flag sets *)

Lemma VisitAll_elem_of (fs : FlagSet) (fname : string) :
  fname ∈ VisitAll fs <-> is_Some (Lookup fs fname).
Proof.
  unfold VisitAll, Lookup. rewrite merge_sort_Permutation.
  by rewrite elem_of_elements, elem_of_dom.
Qed.

Lemma applyPersistentFlag_true (fs : FlagSet) (flNames : list string) :
  applyPersistentFlag fs flNames = true <->
  forall n, n ∈ flNames -> Lookup fs n = None.
Proof.
  unfold applyPersistentFlag. rewrite forallb_forall. split.
  - intros H n Hn. destruct (Lookup fs n) as [f|] eqn:Hl; [|done].
    assert (Hin : In n (VisitAll fs)).
    { apply list_elem_of_In, VisitAll_elem_of. by rewrite Hl. }
    apply H, negb_true_iff in Hin.
    assert (Hex : existsb (fun name => bool_decide (name = n)) flNames = true).
    { apply existsb_exists. exists n. split; [by apply list_elem_of_In|].
      by apply bool_decide_eq_true. }
    congruence.
  - intros H fname Hin. apply negb_true_iff.
    destruct (existsb _ flNames) eqn:Hex; [|done].
    apply existsb_exists in Hex as (n & Hn & Heq).
    apply bool_decide_eq_true in Heq. subst n.
    apply list_elem_of_In, VisitAll_elem_of in Hin.
    rewrite (H fname) in Hin; [by destruct Hin | by apply list_elem_of_In].
Qed.

Lemma applyPersistentFlag_false (fs : FlagSet) (flNames : list string) :
  applyPersistentFlag fs flNames = false <->
  exists n, n ∈ flNames /\ is_Some (Lookup fs n).
Proof.
  split.
  - intros H. destruct (decide (Exists (fun n => is_Some (Lookup fs n)) flNames))
      as [Hex|Hnex].
    + apply Exists_exists in Hex. exact Hex.
    + assert (Ht : applyPersistentFlag fs flNames = true); [|congruence].
      apply applyPersistentFlag_true. intros n Hn.
      destruct (Lookup fs n) eqn:Hl; [|done].
      exfalso. apply Hnex, Exists_exists. exists n. by rewrite Hl.
  - intros (n & Hn & [f Hf]).
    destruct (applyPersistentFlag fs flNames) eqn:Ht; [|done].
    rewrite applyPersistentFlag_true in Ht. rewrite (Ht n Hn) in Hf. done.
Qed.

(** Defining names that are all new and differ from one another binds each
    of them and touches nothing else. *)
Lemma VarAll_new (names : list string) : forall (fs : FlagSet) (f : Flag),
  NoDup names ->
  (forall n, n ∈ names -> Lookup fs n = None) ->
  exists fs', VarAll fs f names = Ok fs' /\
    (forall m, Lookup fs' m = if decide (m ∈ names) then Some f else Lookup fs m) /\
    actual fs' = actual fs /\ fsArgs fs' = fsArgs fs.
Proof.
  induction names as [|n names IH]; intros fs f Hnd Hnew; simpl.
  - exists fs. split; [done|]. split; [|done].
    intros m. destruct (decide (m ∈ [])) as [Hin|]; [|done]. by apply elem_of_nil in Hin.
  - apply NoDup_cons in Hnd as [Hn Hnd].
    unfold Var. unfold Lookup in Hnew. rewrite (Hnew n) by apply list_elem_of_here.
    simpl.
    set (fs1 := {| formal := <[n:=f]> (formal fs); actual := actual fs;
                   fsArgs := fsArgs fs |}).
    destruct (IH fs1 f Hnd) as (fs' & H1 & H2 & H3 & H4).
    { intros m Hm. unfold Lookup, fs1. simpl.
      rewrite lookup_insert_ne; [|intros ->; done].
      apply Hnew. by apply list_elem_of_further. }
    exists fs'. split; [exact H1|]. split; [|by rewrite H3, H4].
    intros m. rewrite H2. unfold Lookup, fs1. simpl.
    destruct (decide (m ∈ names)) as [Hin|Hnin].
    + rewrite decide_True; [done | by apply list_elem_of_further].
    + destruct (decide (m = n)) as [->|Hne].
      * rewrite lookup_insert_eq. rewrite decide_True; [done | apply list_elem_of_here].
      * rewrite lookup_insert_ne by done.
        rewrite decide_False; [done|]. intros Hin. apply elem_of_cons in Hin as [?|?]; done.
Qed.

Lemma Flag_Apply_new (fs : FlagSet) (f : Flag) :
  appliesCleanly f = true ->
  (forall n, n ∈ Names f -> Lookup fs n = None) ->
  exists fs', Flag_Apply f fs = Ok fs' /\
    (forall m, Lookup fs' m = if decide (m ∈ Names f) then Some f else Lookup fs m) /\
    actual fs' = actual fs /\ fsArgs fs' = fsArgs fs.
Proof.
  unfold appliesCleanly, Flag_Apply. intros Hc Hnew.
  apply andb_true_iff in Hc as [Hnd He].
  apply bool_decide_eq_true in Hnd.
  destruct (applyErr f); [done|]. by apply VarAll_new.
Qed.

Lemma persistentFlags_flat (parents : list Command) : forall st,
  persistentFlags st parents = persistentFlagsOf st (flat_map Flags parents).
Proof.
  assert (Happ : forall a b st,
            persistentFlagsOf st (a ++ b)
            = st' ← persistentFlagsOf st a; persistentFlagsOf st' b).
  { induction a as [|fl a IH]; intros b st; simpl; [done|].
    destruct (negb (IsPersistent fl)); [apply IH|].
    destruct (negb (applyPersistentFlag st.1 (Names fl))); [apply IH|].
    destruct (Flag_Apply fl st.1); simpl; [apply IH|done..]. }
  induction parents as [|pCmd parents IH]; intros st; simpl; [done|].
  rewrite Happ. destruct (persistentFlagsOf st (Flags pCmd)); simpl; [apply IH|done..].
Qed.

(** The loop over the flags of the ancestors, from a flag set [fsc] with
    applied flags [appc]: it returns, the flags [app] it applies are those
    it adds to the applied flags, and the flag set it returns keeps what
    [fsc] binds and binds the names of the flags of [app]. *)
Lemma persistentFlagsOf_spec (flags : list Flag) : forall (fsc : FlagSet) (appc : list Flag),
  forallb (fun fl => implb (IsPersistent fl) (appliesCleanly fl)) flags = true ->
  exists fs app,
    persistentFlagsOf (fsc, appc) flags = Ok (fs, appc ++ app) /\
    (forall n fl, Lookup fsc n = Some fl -> Lookup fs n = Some fl) /\
    (forall n fl, Lookup fs n = Some fl -> Lookup fsc n = None ->
                  fl ∈ app /\ n ∈ Names fl) /\
    (forall fl, fl ∈ app ->
                fl ∈ flags /\ IsPersistent fl = true /\
                forall n, n ∈ Names fl -> Lookup fsc n = None /\ Lookup fs n = Some fl) /\
    (forall pre fl post, flags = pre ++ fl :: post ->
                IsPersistent fl = true ->
                (forall n, n ∈ Names fl ->
                           Lookup fsc n = None /\
                           forall fl', fl' ∈ pre -> IsPersistent fl' = true ->
                                       n ∉ Names fl') ->
                fl ∈ app).
Proof.
  induction flags as [|fl rest IH]; intros fsc appc Hwf.
  - exists fsc, []. simpl. rewrite app_nil_r.
    split; [done|]. split; [done|]. split; [congruence|].
    split; [by intros fl Hfl%elem_of_nil|].
    intros pre fl post Heq. by destruct pre.
  - simpl in Hwf. apply andb_true_iff in Hwf as [Hfl Hwf]. simpl.
    destruct (IsPersistent fl) eqn:Hpers; simpl.
    + destruct (applyPersistentFlag fsc (Names fl)) eqn:Hchk; simpl.
      * (* the flag is applied *)
        pose proof (proj1 (applyPersistentFlag_true _ _) Hchk) as Hnew.
        destruct (Flag_Apply_new fsc fl Hfl Hnew) as (fs1 & Hap & Hl1 & _ & _).
        rewrite Hap. simpl.
        destruct (IH fs1 (appc ++ [fl]) Hwf) as (fs & app & Hrun & P1 & P2 & P3 & P4).
        exists fs, (fl :: app). rewrite Hrun, <- app_assoc. simpl.
        split; [done|].
        assert (Hext : forall n x, Lookup fsc n = Some x -> Lookup fs1 n = Some x).
        { intros n x Hx. rewrite Hl1. destruct (decide (n ∈ Names fl)) as [Hin|]; [|done].
          rewrite (Hnew n Hin) in Hx. done. }
        assert (Hfl1 : forall n, n ∈ Names fl -> Lookup fs1 n = Some fl).
        { intros n Hin. rewrite Hl1. by rewrite decide_True. }
        split; [|split; [|split]].
        -- intros n x Hx. by apply P1, Hext.
        -- intros n x Hx Hc. destruct (Lookup fs1 n) as [y|] eqn:Hy.
           ++ rewrite Hl1 in Hy. destruct (decide (n ∈ Names fl)) as [Hin|]; [|congruence].
              injection Hy as <-. rewrite (P1 n fl (Hfl1 n Hin)) in Hx.
              injection Hx as <-. split; [apply list_elem_of_here | done].
           ++ destruct (P2 n x Hx Hy) as [Hin Hn].
              split; [by apply list_elem_of_further | done].
        -- intros x Hx. apply elem_of_cons in Hx as [->|Hx].
           ++ split; [apply list_elem_of_here|]. split; [done|].
              intros n Hn. split; [by apply Hnew | by apply P1, Hfl1].
           ++ destruct (P3 x Hx) as (Hin & Hp & Hn).
              split; [by apply list_elem_of_further|]. split; [done|].
              intros n Hnx. destruct (Hn n Hnx) as [Hn1 Hn2]. split; [|done].
              destruct (Lookup fsc n) eqn:Hc; [|done].
              by rewrite (Hext _ _ Hc) in Hn1.
        -- intros pre x post Heq Hx Hnames. destruct pre as [|y pre]; simpl in Heq.
           ++ injection Heq as <- _. apply list_elem_of_here.
           ++ injection Heq as <- ->. apply list_elem_of_further.
              apply (P4 pre x post eq_refl Hx). intros n Hn.
              destruct (Hnames n Hn) as [Hc Hpre]. split.
              ** rewrite Hl1. rewrite decide_False; [done|].
                 apply Hpre; [apply list_elem_of_here | done].
              ** intros fl' Hfl' Hp'. apply Hpre; [by apply list_elem_of_further | done].
      * (* one of its names is already in the flag set *)
        destruct (IH fsc appc Hwf) as (fs & app & Hrun & P1 & P2 & P3 & P4).
        exists fs, app. split; [done|]. split; [done|]. split; [done|]. split.
        -- intros x Hx. destruct (P3 x Hx) as (Hin & Hp & Hn).
           split; [by apply list_elem_of_further | done].
        -- intros pre x post Heq Hx Hnames. destruct pre as [|y pre]; simpl in Heq.
           ++ injection Heq as <- _.
              apply applyPersistentFlag_false in Hchk as (n & Hn & [z Hz]).
              destruct (Hnames n Hn) as [Hc _]. congruence.
           ++ injection Heq as <- ->. apply (P4 pre x post eq_refl Hx).
              intros n Hn. destruct (Hnames n Hn) as [Hc Hpre]. split; [done|].
              intros fl' Hfl' Hp'. apply Hpre; [by apply list_elem_of_further | done].
    + (* the flag is not persistent *)
      destruct (IH fsc appc Hwf) as (fs & app & Hrun & P1 & P2 & P3 & P4).
      exists fs, app. split; [done|]. split; [done|]. split; [done|]. split.
      * intros x Hx. destruct (P3 x Hx) as (Hin & Hp & Hn).
        split; [by apply list_elem_of_further | done].
      * intros pre x post Heq Hx Hnames. destruct pre as [|y pre]; simpl in Heq.
        -- injection Heq as <- _. congruence.
        -- injection Heq as <- ->. apply (P4 pre x post eq_refl Hx).
           intros n Hn. destruct (Hnames n Hn) as [Hc Hpre]. split; [done|].
           intros fl' Hfl' Hp'. apply Hpre; [by apply list_elem_of_further | done].
Qed.

(** Where defining the names succeeds, the names were new, and they are
    bound to the flag. *)
Lemma VarAll_Ok (names : list string) : forall (fs fs' : FlagSet) (f : Flag),
  VarAll fs f names = Ok fs' ->
  (forall n, n ∈ names -> Lookup fs n = None) /\
  (forall m, Lookup fs' m = if decide (m ∈ names) then Some f else Lookup fs m).
Proof.
  induction names as [|n names IH]; intros fs fs' f H; simpl in H.
  - injection H as <-. split; [by intros n Hn%elem_of_nil|].
    intros m. destruct (decide (m ∈ [])) as [Hin|]; [|done]. by apply elem_of_nil in Hin.
  - unfold Var in H. destruct (formal fs !! n) eqn:Hn; [done|]. simpl in H.
    apply IH in H as [H1 H2]. unfold Lookup in *. simpl in *. split.
    + intros m Hm. apply elem_of_cons in Hm as [->|Hm]; [done|].
      specialize (H1 m Hm). destruct (decide (n = m)) as [->|Hne].
      * by rewrite lookup_insert_eq in H1.
      * by rewrite lookup_insert_ne in H1.
    + intros m. rewrite H2. destruct (decide (m ∈ names)) as [Hin|Hnin].
      * rewrite decide_True; [done | by apply list_elem_of_further].
      * destruct (decide (m = n)) as [->|Hne].
        -- rewrite lookup_insert_eq. rewrite decide_True; [done | apply list_elem_of_here].
        -- rewrite lookup_insert_ne by done. rewrite decide_False; [done|].
           intros Hin. apply elem_of_cons in Hin as [?|?]; done.
Qed.

Lemma applyFlags_Ok (flags : list Flag) : forall (fs fs' : FlagSet),
  applyFlags fs flags = Ok fs' ->
  forall n x, Lookup fs' n = Some x <->
              Lookup fs n = Some x \/ (x ∈ flags /\ n ∈ Names x).
Proof.
  induction flags as [|f flags IH]; intros fs fs' H n x; simpl in H.
  - injection H as <-. split; [by left|].
    intros [?|[Hin _]]; [done | by apply elem_of_nil in Hin].
  - unfold Flag_Apply in H. destruct (applyErr f); [done|].
    destruct (VarAll fs f (Names f)) as [fs1| |] eqn:Hv; [|done..]. simpl in H.
    apply VarAll_Ok in Hv as [Hnew Hl]. rewrite (IH _ _ H), Hl. split.
    + intros [Hx|[Hin Hn]].
      * destruct (decide (n ∈ Names f)) as [Hnf|]; [|by left].
        injection Hx as <-. right. split; [apply list_elem_of_here | done].
      * right. split; [by apply list_elem_of_further | done].
    + intros [Hx|[Hin Hn]].
      * left. destruct (decide (n ∈ Names f)) as [Hnf|]; [|done].
        by rewrite (Hnew n Hnf) in Hx.
      * apply elem_of_cons in Hin as [->|Hin]; [|by right].
        left. by rewrite decide_True.
Qed.



(** ** Resolution of the sub-command *)

Lemma Command_Command_elem_of (cmd sub : Command) (name : string) :
  Command_Command cmd name = Some sub -> sub ∈ Commands cmd /\ HasName sub name = true.
Proof.
  unfold Command_Command. intros H. apply find_some in H as [Hin Hn].
  split; [by apply list_elem_of_In | done].
Qed.

Lemma checkStringSliceIncludes_true (want : string) (sSlice : list string) :
  checkStringSliceIncludes want sSlice = true <-> want ∈ sSlice.
Proof.
  unfold checkStringSliceIncludes. rewrite existsb_exists. split.
  - intros (s & Hin & Heq). apply bool_decide_eq_true in Heq. subst.
    by apply list_elem_of_In.
  - intros Hin. exists want. split; [by apply list_elem_of_In|].
    by apply bool_decide_eq_true.
Qed.

(** C4: a command has a default command that is one of its sub-commands,
    and the first positional argument names no sub-command but is among
    the flag names of [FlagNames] or names a sub-command of the default
    command. Then the name of the default command is put once in front of
    the arguments, the sub-command is looked up again under the first of
    these arguments, and that lookup gives the default command. Resolving the
    new arguments finds the default command by its name, without the
    fallback: it is not applied a second time. The sub-command is a direct
    sub-command of the command. *)
Theorem default_command_fallback_once
    (suggest : option (list Command -> string -> string))
    (cmd : Command) (parents : list Command) (first : string) (rest : list string)
    (dc : Command) (flagNames : list string) :
  let args := first :: rest in
  let name := match suggest with
              | Some f => f (Commands cmd) first
              | None => first
              end in
  DefaultCommand cmd <> EmptyString ->
  Command_Command cmd name = None ->
  Command_Command cmd (DefaultCommand cmd) = Some dc ->
  FlagNames (Lineage cmd parents) = Ok flagNames ->
  (checkStringSliceIncludes name flagNames = true \/
   exists dcSub, dcSub ∈ Commands dc /\ name ∈ Command_Names dcSub) ->
  argsWithDefaultCommand cmd args = DefaultCommand cmd :: args /\
  defaultFallback cmd name flagNames = Ok true /\
  resolveSubCommand suggest cmd parents args = Ok (Some dc) /\
  Command_Command cmd (First (argsWithDefaultCommand cmd args)) = Some dc /\
  (forall parents', resolveSubCommand None cmd parents' (argsWithDefaultCommand cmd args)
                    = Ok (Some dc)) /\
  dc ∈ Commands cmd.
Proof.
  intros args name Hdef Hnone Hdc Hfn Hor.
  assert (Hargs : argsWithDefaultCommand cmd args = DefaultCommand cmd :: args).
  { unfold argsWithDefaultCommand. by rewrite bool_decide_eq_false_2. }
  assert (Hfb : defaultFallback cmd name flagNames = Ok true).
  { unfold defaultFallback. rewrite bool_decide_eq_false_2 by done. simpl.
    rewrite Hdc. simpl. f_equal.
    destruct Hor as [->|(dcSub & Hin & Hn)]; [done|].
    assert (He : existsb (fun dcSub => checkStringSliceIncludes name (Command_Names dcSub))
                         (Commands dc) = true).
    { apply existsb_exists. exists dcSub. split; [by apply list_elem_of_In|].
      by apply checkStringSliceIncludes_true. }
    simpl in He. rewrite He. destruct (Commands dc); [by apply elem_of_nil in Hin|].
    simpl. by rewrite orb_true_r. }
  split; [exact Hargs|]. split; [exact Hfb|]. split; [|split; [|split]].
  - unfold resolveSubCommand. fold args. simpl First. fold name.
    rewrite Hnone, Hfn. simpl. rewrite Hfb. simpl. rewrite Hargs.
    rewrite bool_decide_eq_false_2.
    + simpl. by rewrite Hdc.
    + intros Heq. apply (f_equal length) in Heq. simpl in Heq. lia.
  - by rewrite Hargs.
  - intros parents'. rewrite Hargs. unfold resolveSubCommand. simpl. by rewrite Hdc.
  - by apply (Command_Command_elem_of _ _ _ Hdc).
Qed.

(** The default command of the application is [run], whose sub-command is
    [fast]: the argument [fast] names no sub-command of the application and
    resolves to [run]. *)
Lemma default_command_fallback_once_witness :
  DefaultCommand defaultApp <> EmptyString /\
  Command_Command defaultApp "fast" = None /\
  Command_Command defaultApp (DefaultCommand defaultApp) = Some runCommand /\
  FlagNames (Lineage defaultApp []) = Ok [] /\
  (exists dcSub, dcSub ∈ Commands runCommand /\ "fast" ∈ Command_Names dcSub) /\
  resolveSubCommand None defaultApp [] ["fast"; "x"] = Ok (Some runCommand) /\
  argsWithDefaultCommand defaultApp ["fast"; "x"] = ["run"; "fast"; "x"].
Proof.
  assert (H1 : DefaultCommand defaultApp <> EmptyString) by discriminate.
  assert (H2 : Command_Command defaultApp "fast" = None) by reflexivity.
  assert (H3 : Command_Command defaultApp (DefaultCommand defaultApp) = Some runCommand)
    by reflexivity.
  assert (H4 : FlagNames (Lineage defaultApp []) = Ok []) by (vm_compute; reflexivity).
  assert (H5 : exists dcSub, dcSub ∈ Commands runCommand /\ "fast" ∈ Command_Names dcSub).
  { exists (namedCommand "fast"). split; apply list_elem_of_here. }
  destruct (default_command_fallback_once None defaultApp [] "fast" ["x"] runCommand []
              H1 H2 H3 H4 (or_intror H5)) as (Hargs & _ & Hres & _).
  repeat split; try done.
Defined.

(** C10: a default command that names no sub-command. The first argument
    names no sub-command either, and the fallback dereferences the nil
    result of the lookup of the default command. *)
Example default_command_nil_dereference :
  Command_Command danglingDefaultApp (DefaultCommand danglingDefaultApp) = None /\
  resolveSubCommand None danglingDefaultApp [] ["foo"] = Panicked.
Proof. split; vm_compute; reflexivity. Qed.

(** ** The required flags *)

Lemma requiredFlagScan_fold (p : string -> bool) (names : list string) :
  forall (s0 : string) (b0 : bool),
  fold_left (fun (st : string * bool) key => (key, st.2 || p key)) names (s0, b0)
  = (default s0 (last names), b0 || existsb p names).
Proof.
  induction names as [|n names IH]; intros s0 b0; simpl.
  - by rewrite orb_false_r.
  - rewrite IH, orb_assoc. f_equal. rewrite last_cons. by destruct (last names).
Qed.

Lemma requiredFlagScan_spec (cmd : Command) (parents : list Command) (f : Flag) :
  requiredFlagScan cmd parents f = (lastName f, negb (unsetFlag cmd parents f)).
Proof.
  unfold requiredFlagScan, lastName, unsetFlag.
  rewrite (requiredFlagScan_fold
             (fun key => (Command_IsSet cmd parents (GoStrings.TrimSpace key)).1)).
  simpl. f_equal. induction (Names f) as [|n names IH]; simpl; [done|].
  rewrite IH, negb_andb, negb_involutive. done.
Qed.

Lemma missingFlag_spec (cmd : Command) (parents : list Command) (f : Flag) :
  missingFlag cmd parents f = if reported cmd parents f then [lastName f] else [].
Proof.
  unfold missingFlag, reported. rewrite requiredFlagScan_spec.
  destruct (IsRequired f); [|done]. simpl.
  rewrite negb_involutive. by destruct (unsetFlag cmd parents f).
Qed.

Lemma missingFlags_spec (cmd : Command) (parents : list Command) (flags : list Flag) :
  flat_map (missingFlag cmd parents) flags
  = map lastName (List.filter (reported cmd parents) flags).
Proof.
  induction flags as [|f flags IH]; simpl; [done|].
  rewrite IH, missingFlag_spec. by destruct (reported cmd parents f).
Qed.

(** C5, as amended: the check of the required flags returns an error if
    and only if a required flag whose last name is not empty has none of
    its names set, and the error lists the last name of every such flag of
    the command, in the order of declaration. *)
Theorem required_flags_aggregated (cmd : Command) (parents : list Command) :
  let missing := map lastName (List.filter (reported cmd parents) (Flags cmd)) in
  checkRequiredFlags cmd parents
  = match missing with
    | [] => None
    | _ => Some (errRequiredFlags missing)
    end /\
  (is_Some (checkRequiredFlags cmd parents) <->
   exists f, f ∈ Flags cmd /\ IsRequired f = true /\
             unsetFlag cmd parents f = true /\ lastName f <> EmptyString).
Proof.
  intros missing.
  assert (H : checkRequiredFlags cmd parents
              = match missing with [] => None | _ => Some (errRequiredFlags missing) end).
  { unfold checkRequiredFlags. rewrite missingFlags_spec. fold missing.
    by destruct missing. }
  split; [exact H|]. rewrite H. split.
  - intros Hs. destruct missing as [|n rest] eqn:Hm; [by destruct Hs|].
    assert (Hin : n ∈ missing) by (rewrite Hm; apply list_elem_of_here).
    unfold missing in Hin. apply list_elem_of_In, in_map_iff in Hin as (f & _ & Hf).
    apply filter_In in Hf as [Hf Hr]. unfold reported in Hr.
    apply andb_true_iff in Hr as [Hr Hn]. apply andb_true_iff in Hr as [Hr Hu].
    exists f. split; [by apply list_elem_of_In|]. split; [done|]. split; [done|].
    apply negb_true_iff, bool_decide_eq_false in Hn. done.
  - intros (f & Hf & Hr & Hu & Hn).
    assert (Hin : In (lastName f) missing).
    { apply in_map, filter_In. split; [by apply list_elem_of_In|].
      unfold reported. rewrite Hr, Hu. simpl. by rewrite bool_decide_eq_false_2. }
    destruct missing; [done | by eexists].
Qed.

(** The claim C5 as it is stated fails on a required flag whose last name
    is the empty string: none of its names is set and the check returns no
    error. *)
Lemma required_flag_with_empty_name_passes :
  ~ (is_Some (checkRequiredFlags emptyAliasCommand []) <->
     exists f, f ∈ Flags emptyAliasCommand /\ IsRequired f = true /\
               unsetFlag emptyAliasCommand [] f = true).
Proof.
  intros [_ H]. destruct H as [e He].
  - exists (required (stringFlag ["foo"; ""] "")).
    split; [apply list_elem_of_here|]. split; vm_compute; reflexivity.
  - vm_compute in He. discriminate.
Qed.

(** Two required flags, none set: both are listed, each under its last
    name. *)
Example two_missing_flags_reported :
  checkRequiredFlags twoRequiredCommand [] = Some (errRequiredFlags ["f"; "second"]).
Proof. vm_compute. reflexivity. Qed.

(** ** The hooks *)

Section RunFacts.

Variable SuggestCommandFunc : option (list Command -> string -> string).
Variable checkGroup : list (list Flag) -> option error.
Variable helpCommandAction : hook.
Variable RunSub : Command -> list Command -> list string -> result (option error).

Local Abbreviation RunTail_ :=
  (RunTail SuggestCommandFunc checkGroup helpCommandAction RunSub).

(** C6, as amended: with an [After] hook and the checks of the flags
    passed, a [Before] hook that fails keeps the action from running, and
    the [After] hook still runs, since its call is deferred before [Before]
    is called; when the action runs and returns an error, the [After] hook
    runs after it. In both cases the error of [After], if there is one, is
    joined to the first error. *)
Theorem after_runs_whenever_deferred (cmd : Command) (parents : list Command)
    (after : hook) :
  EnableShellCompletion cmd = false ->
  After cmd = Some after ->
  checkRequiredFlags cmd parents = None ->
  checkGroups checkGroup (MutuallyExclusiveFlags cmd) = None ->
  (forall err, Before cmd = Some (Some err) ->
     RunTail_ cmd parents
     = ([EvBefore; EvExitCoder err] ++ afterEvents after,
        Ok (Some (mergedError err after)))) /\
  (forall err trF args,
     (forall e, Before cmd <> Some (Some e)) ->
     runFlagActions cmd parents (appliedFlags cmd) = (trF, None) ->
     Args cmd = Ok args ->
     resolveSubCommand SuggestCommandFunc cmd parents args = Ok None ->
     default helpCommandAction (Action cmd) = Some err ->
     RunTail_ cmd parents
     = (match Before cmd with Some _ => [EvBefore] | None => [] end
        ++ trF ++ [EvAction; EvExitCoder err] ++ afterEvents after,
        Ok (Some (mergedError err after)))).
Proof.
  intros Hc Ha Hr Hg. split.
  - intros err Hb. unfold RunTail, runBody. rewrite Hr, Hg, Hc, Hb, Ha.
    by destruct after.
  - intros err trF args Hb Hf Hargs Hres Hact.
    unfold RunTail, runBody. rewrite Hr, Hg, Hc, Hf, Hargs, Ha. simpl.
    rewrite Hres. simpl. rewrite Hact.
    destruct (Before cmd) as [[e|]|] eqn:Hbe.
    + by destruct (Hb e).
    + destruct after; simpl; by rewrite <- !app_assoc.
    + destruct after; simpl; by rewrite <- !app_assoc.
Qed.

End RunFacts.

(** The claim C6 as it is stated fails where [Before] fails: the [After]
    hook does run. *)
Lemma after_runs_when_before_fails :
  ~ (EvAfter ∉ (RunTail None (fun _ => None) None (fun _ _ _ => Ok None)
                  beforeFailsCommand []).1).
Proof. intros H. apply H. vm_compute. apply list_elem_of_further, list_elem_of_further, list_elem_of_here. Qed.

(** [Before] fails and [After] succeeds: the action does not run and
    [After] does. The action fails and [After] fails: both errors are
    returned. *)
Lemma after_runs_whenever_deferred_witness :
  EnableShellCompletion beforeFailsCommand = false /\
  After beforeFailsCommand = Some None /\
  checkRequiredFlags beforeFailsCommand [] = None /\
  Before beforeFailsCommand = Some (Some (errString "before")) /\
  RunTail None (fun _ => None) None (fun _ _ _ => Ok None) beforeFailsCommand []
  = ([EvBefore; EvExitCoder (errString "before"); EvAfter],
     Ok (Some (errString "before"))) /\
  RunTail None (fun _ => None) None (fun _ _ _ => Ok None) actionFailsCommand []
  = ([EvBefore; EvAction; EvExitCoder (errString "action");
      EvAfter; EvExitCoder (errString "after")],
     Ok (Some (multiError [errString "action"; errString "after"]))).
Proof.
  split; [reflexivity|]. split; [reflexivity|]. split; [reflexivity|].
  split; [reflexivity|]. split.
  - apply (after_runs_whenever_deferred None (fun _ => None) None (fun _ _ _ => Ok None)
             beforeFailsCommand [] None eq_refl eq_refl eq_refl eq_refl).
    reflexivity.
  - apply (proj2 (after_runs_whenever_deferred None (fun _ => None) None
                    (fun _ _ _ => Ok None) actionFailsCommand []
                    (Some (errString "after")) eq_refl eq_refl eq_refl eq_refl)
             (errString "action") [] []).
    + discriminate.
    + reflexivity.
    + reflexivity.
    + reflexivity.
    + reflexivity.
Defined.

(** ** Invalid flag accesses *)

Lemma lookupFlagSetIn_unknown (lineage : list Command) (name : string) :
  (forall c fs, c ∈ lineage -> flagSet c = Some fs -> Lookup fs name = None) ->
  lookupFlagSetIn lineage name = None.
Proof.
  induction lineage as [|c lineage IH]; intros H; simpl; [done|].
  destruct (flagSet c) as [fs|] eqn:Hfs.
  - rewrite (H c fs (list_elem_of_here _ _) Hfs). apply IH.
    intros c' fs' Hin. apply H. by apply list_elem_of_further.
  - apply IH. intros c' fs' Hin. apply H. by apply list_elem_of_further.
Qed.

Lemma onInvalidFlag_nearest (name : string) (pre : list Command) :
  forall (c : Command) (post : list Command) (h : nat),
  Forall (fun x => InvalidFlagAccessHandler x = None) pre ->
  InvalidFlagAccessHandler c = Some h ->
  onInvalidFlag (pre ++ c :: post) name
  = Some {| handler := h; handlerOf := c; accessed := name |}.
Proof.
  induction pre as [|x pre IH]; intros c post h Hpre Hc; simpl.
  - by rewrite Hc.
  - inversion Hpre as [|? ? Hx Hpre']; subst. rewrite Hx. by apply IH.
Qed.

Lemma onInvalidFlag_none (name : string) (lineage : list Command) :
  Forall (fun x => InvalidFlagAccessHandler x = None) lineage ->
  onInvalidFlag lineage name = None.
Proof.
  induction lineage as [|x lineage IH]; intros H; simpl; [done|].
  inversion H as [|? ? Hx H']; subst. rewrite Hx. by apply IH.
Qed.

(** C8, as amended: an access to a flag name that no flag set of the
    command and its ancestors knows goes to the handler of the nearest
    command of the lineage that has one, and to none when no command has
    one. [Value] then returns nil, the typed getters the zero of their
    type and [IsSet] false; [Set] returns the error that there is no such
    flag, after the handler was called. *)
Theorem invalid_flag_access
    (FlagSet_Set : FlagSet -> string -> string -> option error)
    (cmd : Command) (parents : list Command) (name val : string) :
  (forall c fs, c ∈ Lineage cmd parents -> flagSet c = Some fs ->
                Lookup fs name = None) ->
  let call := onInvalidFlag (cmd :: parents) name in
  Command_Value cmd parents name = (None, call) /\
  Uint64 cmd parents name = 0%N /\
  UintSlice cmd parents name = [] /\
  IntSlice cmd parents name = [] /\
  Command_IsSet cmd parents name = (false, call) /\
  Command_Set FlagSet_Set cmd parents name val
  = (Some (errString ("no such flag -" +:+ name)), call) /\
  (Forall (fun c => InvalidFlagAccessHandler c = None) (cmd :: parents) ->
   call = None) /\
  (forall pre c post h,
     cmd :: parents = pre ++ c :: post ->
     Forall (fun x => InvalidFlagAccessHandler x = None) pre ->
     InvalidFlagAccessHandler c = Some h ->
     call = Some {| handler := h; handlerOf := c; accessed := name |}).
Proof.
  intros Hunknown call. apply lookupFlagSetIn_unknown in Hunknown.
  assert (Hl : lookupFlagSet cmd parents name = (None, call)).
  { unfold lookupFlagSet. by rewrite Hunknown. }
  assert (Hv : Command_Value cmd parents name = (None, call)).
  { unfold Command_Value. by rewrite Hl. }
  split; [exact Hv|].
  unfold Uint64, UintSlice, IntSlice, Command_IsSet, Command_Set. rewrite Hv, Hl.
  repeat (split; [reflexivity|]). split.
  - apply onInvalidFlag_none.
  - intros pre c post h Heq Hpre Hc. unfold call. rewrite Heq.
    by apply onInvalidFlag_nearest.
Qed.

(** The flag [nope] is unknown to the sub-command and to the application,
    which has the handler: the handler of the application is called. *)
Lemma invalid_flag_access_witness :
  (forall c fs, c ∈ Lineage plainSub [handlerApp] -> flagSet c = Some fs ->
                Lookup fs "nope" = None) /\
  Command_Value plainSub [handlerApp] "nope"
  = (None, Some {| handler := 7; handlerOf := handlerApp; accessed := "nope" |}) /\
  Uint64 plainSub [handlerApp] "nope" = 0%N.
Proof.
  assert (H : forall c fs, c ∈ Lineage plainSub [handlerApp] -> flagSet c = Some fs ->
                           Lookup fs "nope" = None).
  { intros c fs Hin Hfs. unfold Lineage in Hin. simpl in Hin.
    apply elem_of_cons in Hin as [->|Hin].
    - vm_compute in Hfs. injection Hfs as <-. reflexivity.
    - apply elem_of_cons in Hin as [->|Hin]; [|by apply elem_of_nil in Hin].
      vm_compute in Hfs. injection Hfs as <-. reflexivity. }
  destruct (invalid_flag_access (fun _ _ _ => None) plainSub [handlerApp] "nope" "1" H)
    as (Hv & Hu & _).
  split; [exact H|]. split; [exact Hv | exact Hu].
Defined.

(** The claim C8 as it is stated fails for [Set]: without any handler, the
    access to an unknown flag is not silent, [Set] returns an error. *)
Lemma set_of_unknown_flag_returns_error :
  ~ ((Command_Set (fun _ _ _ => None) (afterParse (namedCommand "app") []) []
        "nope" "1").1 = None).
Proof. vm_compute. discriminate. Qed.

(** * Further properties of the code *)

(** ** The collection value cell *)

Lemma splitGo_not_nil (sep : string) (s : string) : forall (skip : nat) (cur : string),
  GoStrings.splitGo sep skip cur s <> [].
Proof.
  induction s as [|c s IH]; intros skip cur; [done|].
  cbn [GoStrings.splitGo]. destruct skip; [|apply IH].
  destruct (GoStrings.HasPrefix (String c s) sep); [done | apply IH].
Qed.

(** With a separator that is not empty, a raw value always has a token. *)
Lemma flagSplitMultiValues_not_nil (g : SliceSettings) (v : string) :
  defaultSliceFlagSeparator g <> EmptyString ->
  flagSplitMultiValues g v <> [].
Proof.
  intros Hsep. unfold flagSplitMultiValues.
  destruct (disableSliceFlagSeparator g); [done|].
  unfold GoStrings.Split. destruct (defaultSliceFlagSeparator g); [done|].
  apply splitGo_not_nil.
Qed.

Section SliceBaseMore.

Context {T E : Type}.
Variable zero : T.
Variable valueSet : string -> E + T.
Variable jsonUnmarshal : string -> option (list T).
Variable slPfx : string.

Local Abbreviation Set_in g := (Set' valueSet jsonUnmarshal slPfx g).
Local Abbreviation tokens := (setTokens valueSet).
Local Abbreviation parsed := (parseTokens valueSet).

Lemma SetOne_fold (vs : list T) : forall (i : SliceBase T),
  hasBeenSet i = true ->
  fold_left SetOne vs i
  = {| slice := slice i ++ vs; hasBeenSet := true; value := value i |}.
Proof.
  induction vs as [|v vs IH]; intros i Hs; simpl.
  - rewrite app_nil_r, <- Hs. by destruct i.
  - rewrite IH; unfold SetOne; rewrite Hs; simpl; [|done].
    by rewrite <- app_assoc.
Qed.

(** X1: [SetOne] follows the rule of [Set]: the first value put into a cell
    that has not been set replaces what the cell held, and every later
    value is appended. After the values [v], [vs] the cell holds them after
    its former contents if it had been set, and them alone otherwise; the
    cell counts as set and its inner cell is untouched. *)
Theorem SetOne_replaces_then_appends (i : SliceBase T) (v : T) (vs : list T) :
  fold_left SetOne (v :: vs) i
  = {| slice := (if hasBeenSet i then slice i else []) ++ v :: vs;
       hasBeenSet := true;
       value := value i |}.
Proof.
  simpl. rewrite SetOne_fold.
  - unfold SetOne. destruct (hasBeenSet i); simpl; by rewrite <- ?app_assoc.
  - unfold SetOne. by destruct (hasBeenSet i) eqn:Hs.
Qed.

Lemma setTokens_failure (pre : list string) : forall (i : SliceBase T)
    (bad : string) (post : list string) (l : list T) (e : E),
  is_Some (value i) ->
  parsed pre = Some l ->
  valueSet (GoStrings.TrimSpace bad) = inl e ->
  exists i', tokens i (pre ++ bad :: post) = (i', Error e) /\
             slice i' = slice i ++ l /\ hasBeenSet i' = hasBeenSet i.
Proof.
  induction pre as [|s pre IH]; intros i bad post l e [x Hx] Hp He; simpl in *.
  - injection Hp as <-. rewrite Hx, He. exists i. by rewrite app_nil_r.
  - rewrite Hx. destruct (valueSet (GoStrings.TrimSpace s)) as [e'|t]; [done|].
    destruct (parsed pre) as [l'|] eqn:Hl; [|done]. injection Hp as <-.
    destruct (IH {| slice := slice i ++ [t]; hasBeenSet := hasBeenSet i;
                    value := Some t |} bad post l' e) as (i' & H1 & H2 & H3);
      [by eexists | done | done |].
    exists i'. simpl in *. by rewrite H1, H2, <- app_assoc.
Qed.

(** X2: [Set] is not all or nothing. When a token of the raw value fails to
    parse, [Set] returns the error of the first such token; the elements of
    the tokens before it are already appended and stay in the cell, the
    tokens after it are not looked at, and a cell that had not been set
    has lost its former contents. *)
Theorem Set_error_keeps_earlier_tokens g (i : SliceBase T) (v : string)
    (pre : list string) (bad : string) (post : list string) (l : list T) (e : E) :
  is_Some (value i) ->
  GoStrings.HasPrefix v slPfx = false ->
  flagSplitMultiValues g v = pre ++ bad :: post ->
  parsed pre = Some l ->
  valueSet (GoStrings.TrimSpace bad) = inl e ->
  exists i', Set_in g i v = (i', Error e) /\
             slice i' = (if hasBeenSet i then slice i else []) ++ l /\
             hasBeenSet i' = true.
Proof.
  intros Hv Hp Hsplit Hl He. unfold Set'. rewrite Hp, Hsplit.
  destruct (setTokens_failure pre (cleared i) bad post l e) as (i' & H1 & H2 & H3).
  - unfold cleared. by destruct (hasBeenSet i).
  - done.
  - done.
  - exists i'. rewrite H1, H2, H3. unfold cleared.
    by destruct (hasBeenSet i) eqn:Hs.
Qed.

(** X3: a cell made by [NewSliceBase] has no inner cell. [Set] of a value
    that is not serialized, under a separator that is not empty, drops the
    defaults and then dereferences the nil inner cell: it panics on the
    first token, whatever the defaults and the value are. *)
Theorem Set_NewSliceBase_plain_value_panics g (defaults : list T) (v : string) :
  defaultSliceFlagSeparator g <> EmptyString ->
  GoStrings.HasPrefix v slPfx = false ->
  Set_in g (NewSliceBase defaults) v
  = ({| slice := []; hasBeenSet := true; value := None |}, Panic).
Proof.
  intros Hsep Hp. unfold Set'. rewrite Hp.
  pose proof (flagSplitMultiValues_not_nil g v Hsep) as Hne.
  destruct (flagSplitMultiValues g v) as [|tok toks]; [done|]. reflexivity.
Qed.

(** X4: [Set] of a serialized value is idempotent: a second [Set] of the
    same value changes nothing, whether the value decodes or not. *)
Theorem Set_serialized_idempotent g (i : SliceBase T) (v : string) :
  GoStrings.HasPrefix v slPfx = true ->
  Set_in g (Set_in g i v).1 v = Set_in g i v.
Proof.
  intros Hp. unfold Set'. rewrite Hp. simpl.
  by destruct (jsonUnmarshal (GoStrings.Replace1 v slPfx)).
Qed.

Lemma setTokens_extends (toks : list string) : forall (i : SliceBase T),
  slice i `prefix_of` slice (tokens i toks).1 /\
  hasBeenSet (tokens i toks).1 = hasBeenSet i.
Proof.
  induction toks as [|s toks IH]; intros i; simpl; [done|].
  destruct (value i) as [x|]; [|done].
  destruct (valueSet (GoStrings.TrimSpace s)) as [e|t]; [done|].
  destruct (IH {| slice := slice i ++ [t]; hasBeenSet := hasBeenSet i;
                  value := Some t |}) as [H1 H2].
  simpl in *. split; [|done].
  etrans; [|exact H1]. by apply prefix_app_r.
Qed.

(** X5: after [Set] the cell counts as set, whatever the value and whether
    [Set] returns nil, returns an error or panics; and [Set] of a value
    that is not serialized never removes or reorders what a cell that had
    been set holds: the former contents are a prefix of the new ones. *)
Theorem Set_marks_set_and_only_appends g (i : SliceBase T) (v : string) :
  hasBeenSet (Set_in g i v).1 = true /\
  (hasBeenSet i = true -> GoStrings.HasPrefix v slPfx = false ->
   slice i `prefix_of` slice (Set_in g i v).1).
Proof.
  unfold Set'. destruct (GoStrings.HasPrefix v slPfx) eqn:Hp; simpl.
  - split; [done|]. intros _ Hf. done.
  - destruct (setTokens_extends (flagSplitMultiValues g v) (cleared i)) as [H1 H2].
    split.
    + rewrite H2. unfold cleared. by destruct (hasBeenSet i) eqn:Hs.
    + intros Hs _. unfold cleared in *. by rewrite Hs in *.
Qed.

End SliceBaseMore.

(** The value 1,2,x,4 set into a cell of numbers that holds 7: the error is
    that of x, and the cell is left with 1 and 2. *)
Lemma Set_error_keeps_earlier_tokens_witness :
  flagSplitMultiValues commaSeparated "1,2,x,4" = ["1"; "2"] ++ "x" :: ["4"] /\
  decimalValueSet (GoStrings.TrimSpace "x") = inl "x" /\
  exists i',
    Set' decimalValueSet (fun _ => None) "sl:::" commaSeparated (Create 0 [7]) "1,2,x,4"
    = (i', Error "x") /\
    slice i' = [1; 2].
Proof.
  assert (H1 : flagSplitMultiValues commaSeparated "1,2,x,4" = ["1"; "2"] ++ "x" :: ["4"])
    by reflexivity.
  assert (H2 : decimalValueSet (GoStrings.TrimSpace "x") = inl "x") by reflexivity.
  split; [exact H1|]. split; [exact H2|].
  destruct (Set_error_keeps_earlier_tokens decimalValueSet (fun _ => None) "sl:::"
              commaSeparated (Create 0 [7]) "1,2,x,4" ["1"; "2"] "x" ["4"] [1; 2] "x")
    as (i' & Hs & Hl & _); [by eexists | reflexivity | exact H1 | reflexivity | exact H2 |].
  exists i'. split; [exact Hs | exact Hl].
Defined.

(** A string slice made by [NewSliceBase] with c and d, then [Set] of 10. *)
Lemma Set_NewSliceBase_plain_value_panics_witness :
  defaultSliceFlagSeparator commaSeparated <> EmptyString /\
  GoStrings.HasPrefix "10" "sl:::" = false /\
  (Set' stringValueSet jsonUnmarshalStrings "sl:::" commaSeparated
     (NewSliceBase ["c"; "d"]) "10").2 = Panic.
Proof.
  assert (H1 : defaultSliceFlagSeparator commaSeparated <> EmptyString) by discriminate.
  assert (H2 : GoStrings.HasPrefix "10" "sl:::" = false) by reflexivity.
  split; [exact H1|]. split; [exact H2|].
  by rewrite (Set_NewSliceBase_plain_value_panics stringValueSet jsonUnmarshalStrings
                "sl:::" commaSeparated ["c"; "d"] "10" H1 H2).
Defined.

(** The serialized slice of a and b, set twice into a cell that holds x. *)
Lemma Set_serialized_idempotent_witness :
  let v := "sl:::" +:+ jsonMarshalStrings ["a"; "b"] in
  let set := Set' stringValueSet jsonUnmarshalStrings "sl:::" commaSeparated in
  GoStrings.HasPrefix v "sl:::" = true /\
  set (set (Create "" ["x"]) v).1 v = set (Create "" ["x"]) v /\
  slice (set (Create "" ["x"]) v).1 = ["a"; "b"].
Proof.
  intros v set.
  assert (H : GoStrings.HasPrefix v "sl:::" = true) by reflexivity.
  split; [exact H|]. split; [|reflexivity].
  apply (Set_serialized_idempotent stringValueSet jsonUnmarshalStrings "sl:::"
           commaSeparated (Create "" ["x"]) v H).
Defined.

(** ** Lookups of a command *)

Lemma find_Some_first {A : Type} (f : A -> bool) (l : list A) (x : A) :
  find f l = Some x <->
  exists pre post, l = pre ++ x :: post /\ f x = true /\
                   forall y, y ∈ pre -> f y = false.
Proof.
  induction l as [|a l IH]; simpl.
  - split; [done|]. intros (pre & post & Heq & _). by destruct pre.
  - destruct (f a) eqn:Ha.
    + split.
      * intros [= <-]. exists [], l. split; [done|]. split; [done|].
        by intros y Hy%elem_of_nil.
      * intros (pre & post & Heq & Hx & Hpre). destruct pre as [|b pre]; simpl in Heq.
        -- by injection Heq as <- _.
        -- injection Heq as <- _. rewrite (Hpre a) in Ha; [done | apply list_elem_of_here].
    + rewrite IH. split.
      * intros (pre & post & -> & Hx & Hpre). exists (a :: pre), post.
        split; [done|]. split; [done|].
        intros y Hy. apply elem_of_cons in Hy as [->|Hy]; [done | by apply Hpre].
      * intros (pre & post & Heq & Hx & Hpre). destruct pre as [|b pre]; simpl in Heq.
        -- injection Heq as <- _. congruence.
        -- injection Heq as <- ->. exists pre, post. split; [done|]. split; [done|].
           intros y Hy. apply Hpre. by apply list_elem_of_further.
Qed.

Lemma find_None_all {A : Type} (f : A -> bool) (l : list A) :
  find f l = None <-> forall y, y ∈ l -> f y = false.
Proof.
  induction l as [|a l IH]; simpl.
  - split; [by intros _ y Hy%elem_of_nil | done].
  - destruct (f a) eqn:Ha.
    + split; [done|]. intros H. rewrite (H a) in Ha; [done | apply list_elem_of_here].
    + rewrite IH. split.
      * intros H y Hy. apply elem_of_cons in Hy as [->|Hy]; [done | by apply H].
      * intros H y Hy. apply H. by apply list_elem_of_further.
Qed.

Lemma existsb_bool_decide_eq (name : string) (names : list string) :
  existsb (fun n => bool_decide (n = name)) names = true <-> name ∈ names.
Proof.
  rewrite existsb_exists. split.
  - intros (n & Hin & Heq). apply bool_decide_eq_true in Heq. subst.
    by apply list_elem_of_In.
  - intros Hin. exists name. split; [by apply list_elem_of_In|].
    by apply bool_decide_eq_true.
Qed.

Lemma existsb_bool_decide_eq_false (name : string) (names : list string) :
  existsb (fun n => bool_decide (n = name)) names = false <-> name ∉ names.
Proof.
  rewrite <- existsb_bool_decide_eq. by destruct (existsb _ names).
Qed.

Lemma HasName_true (cmd : Command) (name : string) :
  HasName cmd name = true <-> name = Name cmd \/ name ∈ Aliases cmd.
Proof.
  unfold HasName, Command_Names. rewrite existsb_bool_decide_eq.
  simpl. by rewrite elem_of_cons.
Qed.

Lemma HasName_false (cmd : Command) (name : string) :
  HasName cmd name = false <-> name <> Name cmd /\ name ∉ Aliases cmd.
Proof.
  unfold HasName, Command_Names. rewrite existsb_bool_decide_eq_false.
  simpl. rewrite not_elem_of_cons. done.
Qed.

(** X6: [Command] looks a sub-command up by its name or one of its
    aliases and returns the first one in the order of declaration that
    answers to the name, so that an earlier sub-command hides a later one
    of the same name; it returns nil exactly when no sub-command answers to
    the name. *)
Theorem Command_returns_first_match (cmd : Command) (name : string) :
  (forall sub, Command_Command cmd name = Some sub <->
     exists pre post,
       Commands cmd = pre ++ sub :: post /\
       (name = Name sub \/ name ∈ Aliases sub) /\
       forall c, c ∈ pre -> name <> Name c /\ name ∉ Aliases c) /\
  (Command_Command cmd name = None <->
     forall c, c ∈ Commands cmd -> name <> Name c /\ name ∉ Aliases c).
Proof.
  unfold Command_Command. split.
  - intros sub. rewrite find_Some_first. split.
    + intros (pre & post & Heq & Hn & Hpre). exists pre, post.
      split; [done|]. split; [by apply HasName_true|].
      intros c Hc. by apply HasName_false, Hpre.
    + intros (pre & post & Heq & Hn & Hpre). exists pre, post.
      split; [done|]. split; [by apply HasName_true|].
      intros c Hc. by apply HasName_false, Hpre.
  - rewrite find_None_all. split.
    + intros H c Hc. by apply HasName_false, H.
    + intros H c Hc. by apply HasName_false, H.
Qed.

(** X7: [lookupFlag] goes through the command first and then through its
    ancestors, nearest first: a flag of the command hides the flags of the
    same name of its ancestors, a name the command does not declare is
    looked up from the parent, and the result is nil exactly when no
    flag of the lineage has the name. *)
Theorem lookupFlag_nearest_declaration (cmd : Command) (parents : list Command)
    (name : string) :
  (forall f, lookupFlag cmd [] name = Some f -> lookupFlag cmd parents name = Some f) /\
  (lookupFlag cmd [] name = None ->
   lookupFlag cmd parents name
   = match parents with
     | [] => None
     | p :: rest => lookupFlag p rest name
     end) /\
  (lookupFlag cmd parents name = None <->
   forall c f, c ∈ cmd :: parents -> f ∈ Flags c -> name ∉ Names f).
Proof.
  assert (Happ : forall (l1 l2 : list Flag) (p : Flag -> bool),
            find p (l1 ++ l2) = match find p l1 with
                                | Some x => Some x
                                | None => find p l2
                                end).
  { induction l1 as [|a l1 IH]; intros l2 p; simpl; [done|].
    destruct (p a); [done | apply IH]. }
  unfold lookupFlag, Lineage. simpl. rewrite app_nil_r. split; [|split].
  - intros f Hf. rewrite Happ. by rewrite Hf.
  - intros Hn. rewrite Happ, Hn. by destruct parents.
  - rewrite find_None_all. split.
    + intros H c f Hc Hf. apply existsb_bool_decide_eq_false, H.
      change (f ∈ flat_map Flags (cmd :: parents)).
      apply list_elem_of_In, in_flat_map. exists c.
      split; by apply list_elem_of_In.
    + intros H f Hf. apply existsb_bool_decide_eq_false.
      change (f ∈ flat_map Flags (cmd :: parents)) in Hf.
      apply list_elem_of_In, in_flat_map in Hf as (c & Hc & Hf).
      apply (H c f); by apply list_elem_of_In.
Qed.

Lemma lookupFlagSetIn_nearest (name : string) (pre : list Command) :
  forall (c : Command) (post : list Command) (fs : FlagSet),
  flagSet c = Some fs ->
  is_Some (Lookup fs name) ->
  (forall y fs', y ∈ pre -> flagSet y = Some fs' -> Lookup fs' name = None) ->
  lookupFlagSetIn (pre ++ c :: post) name = Some fs.
Proof.
  induction pre as [|y pre IH]; intros c post fs Hc [f Hf] Hpre; simpl.
  - by rewrite Hc, Hf.
  - destruct (flagSet y) as [fs'|] eqn:Hy.
    + rewrite (Hpre y fs' (list_elem_of_here _ _) Hy).
      apply IH; [done | by eexists |].
      intros z fz Hz. apply Hpre. by apply list_elem_of_further.
    + apply IH; [done | by eexists |].
      intros z fz Hz. apply Hpre. by apply list_elem_of_further.
Qed.

(** X8: when a flag set of the lineage defines the name, the access is
    valid: [lookupFlagSet] returns the flag set of the nearest command
    that defines it, passing over commands without a flag set, and no
    invalid-flag handler is called; [Value] returns the value the name has
    in that flag set. *)
Theorem lookupFlagSet_nearest_definition (cmd : Command) (parents : list Command)
    (name : string) (pre : list Command) (c : Command) (post : list Command)
    (fs : FlagSet) (f : Flag) :
  cmd :: parents = pre ++ c :: post ->
  flagSet c = Some fs ->
  Lookup fs name = Some f ->
  (forall y fs', y ∈ pre -> flagSet y = Some fs' -> Lookup fs' name = None) ->
  lookupFlagSet cmd parents name = (Some fs, None) /\
  Command_Value cmd parents name = (Some (flagValue f), None) /\
  (Command_IsSet cmd parents name).2 = None.
Proof.
  intros Heq Hc Hf Hpre.
  assert (Hl : lookupFlagSet cmd parents name = (Some fs, None)).
  { unfold lookupFlagSet, Lineage. change ([cmd] ++ parents) with (cmd :: parents).
    rewrite Heq.
    rewrite (lookupFlagSetIn_nearest name pre c post fs Hc); [done | by eexists | done]. }
  split; [exact Hl|]. unfold Command_Value, Command_IsSet. rewrite Hl, Hf. simpl.
  split; [done|].
  destruct (existsb _ (Visit fs)); [done|].
  by destruct (lookupFlag cmd parents name).
Qed.

(** The flag [dir] of the application is not persistent: [serve] does not
    define it, the flag set of the application does, and its value there
    is what [Value] returns from [serve]. *)
Lemma lookupFlagSet_nearest_definition_witness :
  flagSet appParsed = Some (flagSetOf appParsed) /\
  Lookup (flagSetOf appParsed) "dir" = Some dirFlag /\
  Lookup (flagSetOf serveParsed) "dir" = None /\
  Command_Value serveParsed [appParsed] "dir" = (Some (VString "app"), None).
Proof.
  assert (H1 : flagSet appParsed = Some (flagSetOf appParsed)) by reflexivity.
  assert (H2 : Lookup (flagSetOf appParsed) "dir" = Some dirFlag)
    by (vm_compute; reflexivity).
  assert (H3 : Lookup (flagSetOf serveParsed) "dir" = None) by (vm_compute; reflexivity).
  split; [exact H1|]. split; [exact H2|]. split; [exact H3|].
  apply (lookupFlagSet_nearest_definition serveParsed [appParsed] "dir"
           [serveParsed] appParsed [] (flagSetOf appParsed) dirFlag eq_refl H1 H2).
  intros y fs' Hy Hfs. rewrite list_elem_of_singleton in Hy. subst y.
  assert (Hs : flagSet serveParsed = Some (flagSetOf serveParsed)) by reflexivity.
  rewrite Hs in Hfs. apply (inj Some) in Hfs. subst fs'. exact H3.
Defined.

(** ** The names of the flags in use *)

Lemma Visit_elem_of (fs : FlagSet) (fname : string) :
  fname ∈ Visit fs <-> fname ∈ actual fs.
Proof. unfold Visit. by rewrite merge_sort_Permutation, elem_of_elements. Qed.

Lemma uniqNames_spec (names : list string) : forall (m : gset string),
  NoDup (uniqNames m names) /\
  forall x, x ∈ uniqNames m names <-> x ∈ names /\ x ∉ m.
Proof.
  induction names as [|n names IH]; intros m; simpl.
  - split; [constructor|]. intros x. rewrite elem_of_nil. tauto.
  - destruct (bool_decide (n ∈ m)) eqn:Hn.
    + apply bool_decide_eq_true in Hn. destruct (IH m) as [H1 H2]. split; [done|].
      intros x. rewrite H2, elem_of_cons. split; [tauto|].
      intros [[->|Hx] Hm]; [done | tauto].
    + apply bool_decide_eq_false in Hn.
      destruct (IH ({[n]} ∪ m)) as [H1 H2]. split.
      * constructor; [|done]. rewrite H2, not_elem_of_union, elem_of_singleton. tauto.
      * intros x. rewrite !elem_of_cons, H2, not_elem_of_union, elem_of_singleton.
        split.
        -- intros [->|[Hx [Hne Hm]]]; tauto.
        -- intros [[->|Hx] Hm]; [by left|].
           destruct (decide (x = n)) as [->|Hne]; [by left | by right].
Qed.

(** X9: [LocalFlagNames] dereferences the flag set of the command, so it
    panics on a command whose flags were never parsed; otherwise the names
    it returns hold no name twice, and they are exactly the names that
    visiting the flags set on the command line gives together with all
    the names of the flags of the command that a source has set. *)
Theorem LocalFlagNames_distinct_names (cmd : Command) :
  match flagSet cmd with
  | None => LocalFlagNames cmd = Panicked
  | Some fs =>
      exists names,
        LocalFlagNames cmd = Ok names /\
        NoDup names /\
        forall n, n ∈ names <->
          (exists fname, fname ∈ actual fs /\ flagNameVisitor fname = [n]) \/
          (exists f, f ∈ Flags cmd /\ IsSet f = true /\ n ∈ Names f)
  end.
Proof.
  unfold LocalFlagNames. destruct (flagSet cmd) as [fs|]; [|done].
  eexists. split; [done|].
  destruct (uniqNames_spec
              (flat_map flagNameVisitor (Visit fs)
               ++ flat_map (fun f => if IsSet f then Names f else []) (Flags cmd)) ∅)
    as [H1 H2].
  split; [exact H1|]. intros n. rewrite H2, elem_of_app.
  rewrite !list_elem_of_In, !in_flat_map. split.
  - intros [[(fname & Hf & Hn)|(f & Hf & Hn)] _].
    + left. exists fname. split; [by apply Visit_elem_of, list_elem_of_In|].
      unfold flagNameVisitor in *. destruct (bool_decide _); [done|].
      destruct Hn as [->|[]]. done.
    + right. exists f. split; [by apply list_elem_of_In|].
      destruct (IsSet f); [|done]. split; [done | by apply list_elem_of_In].
  - intros [(fname & Hf & Hn)|(f & Hf & Hs & Hn)].
    + split; [|apply not_elem_of_empty]. left. exists fname.
      split; [by apply list_elem_of_In, Visit_elem_of|]. rewrite Hn. by left.
    + split; [|apply not_elem_of_empty]. right. exists f. split; [by apply list_elem_of_In|].
      rewrite Hs. by apply list_elem_of_In.
Qed.

Lemma FlagNames_Ok (lineage : list Command) :
  Forall (fun c => is_Some (flagSet c)) lineage ->
  FlagNames lineage = Ok (concat (reverse (map localNamesOf lineage))).
Proof.
  induction lineage as [|cmd parent IH]; intros H; [done|].
  inversion H as [|? ? [fs Hfs] Hp]; subst.
  cbn [FlagNames map]. rewrite reverse_cons, concat_app. simpl. rewrite app_nil_r.
  assert (Hl : LocalFlagNames cmd = Ok (localNamesOf cmd)).
  { unfold localNamesOf, LocalFlagNames. by rewrite Hfs. }
  rewrite Hl. simpl.
  destruct parent as [|p rest]; [done|].
  rewrite (IH Hp). done.
Qed.

Lemma FlagNames_Panicked (lineage : list Command) :
  Exists (fun c => flagSet c = None) lineage ->
  FlagNames lineage = Panicked.
Proof.
  induction lineage as [|cmd parent IH]; intros H; [by inversion H|].
  cbn [FlagNames]. unfold LocalFlagNames at 1.
  destruct (flagSet cmd) as [fs|] eqn:Hfs; [|done]. simpl.
  inversion H as [? ? Hc|? ? Hp]; subst; [congruence|].
  destruct parent as [|p rest]; [by inversion Hp|].
  by rewrite (IH Hp).
Qed.

(** X10: [FlagNames] gives the names of the flags in use of the root
    first and of the command last, each command with its own names as
    [LocalFlagNames] gives them, and without removing a name that two
    commands have in common; it panics as soon as one command of the
    lineage has no flag set. *)
Theorem FlagNames_root_first (lineage : list Command) :
  (Forall (fun c => is_Some (flagSet c)) lineage ->
   FlagNames lineage = Ok (concat (reverse (map localNamesOf lineage)))) /\
  (Exists (fun c => flagSet c = None) lineage ->
   FlagNames lineage = Panicked).
Proof. split; [apply FlagNames_Ok | apply FlagNames_Panicked]. Qed.

(** A command can have several sub-commands that answer to a name; the
    first one is found. *)
Example Command_first_of_twins :
  Name <$> Command_Command twinsCommand "first" = Some "first" /\
  Command_Command twinsCommand "inner" = None.
Proof. split; reflexivity. Qed.

(** ** The name of a flag in use *)

Lemma longest_part_fold (parts : list string) : forall (init : string),
  let r := fold_left
             (fun name part =>
                let part := GoStrings.TrimSpace part in
                if Nat.ltb (String.length name) (String.length part) then part else name)
             parts init in
  String.length init <= String.length r /\
  Forall (fun part => String.length (GoStrings.TrimSpace part) <= String.length r) parts /\
  (r = init \/ r ∈ map GoStrings.TrimSpace parts).
Proof.
  induction parts as [|p parts IH]; intros init; simpl.
  - split; [lia|]. split; [constructor | by left].
  - set (init' := if Nat.ltb (String.length init) (String.length (GoStrings.TrimSpace p))
                  then GoStrings.TrimSpace p else init).
    destruct (IH init') as (H1 & H2 & H3). cbv zeta in H1, H2, H3.
    assert (Hi : String.length init <= String.length init' /\
                 String.length (GoStrings.TrimSpace p) <= String.length init' /\
                 (init' = init \/ init' = GoStrings.TrimSpace p)).
    { unfold init'.
      destruct (Nat.ltb_spec (String.length init) (String.length (GoStrings.TrimSpace p)));
        (split; [lia|]); (split; [lia|]); auto. }
    destruct Hi as (Hi1 & Hi2 & Hi3).
    split; [lia|]. split.
    + constructor; [lia | exact H2].
    + destruct H3 as [H3|H3].
      * rewrite H3. destruct Hi3 as [->| ->]; [by left|].
        right. apply list_elem_of_here.
      * right. by apply list_elem_of_further.
Qed.

(** X11: the visitor of [makeFlagNameVisitor] adds at most one name for a
    flag: the name of the flag is cut at the commas, the parts are trimmed,
    and a longest part is added, provided it is not empty. It adds nothing
    exactly when every part is blank. *)
Theorem flagNameVisitor_longest_part (fname : string) :
  let parts := map GoStrings.TrimSpace (GoStrings.Split fname ",") in
  (flagNameVisitor fname = [] /\ Forall (fun part => part = EmptyString) parts) \/
  (exists name, flagNameVisitor fname = [name] /\ name <> EmptyString /\
     name ∈ parts /\
     Forall (fun part => String.length part <= String.length name) parts).
Proof.
  intros parts. unfold flagNameVisitor.
  assert (Hne : GoStrings.Split fname "," <> []) by apply splitGo_not_nil.
  unfold parts. clear parts.
  generalize dependent (GoStrings.Split fname ","). intros nameParts Hne.
  pose proof (longest_part_fold nameParts (GoStrings.TrimSpace (hd EmptyString nameParts)))
    as (H1 & H2 & H3).
  cbv zeta in *.
  set (r := fold_left _ _ _) in *.
  assert (Hlen : Forall (fun part => String.length part <= String.length r)
                        (map GoStrings.TrimSpace nameParts)).
  { by apply Forall_map. }
  assert (Hin : r ∈ map GoStrings.TrimSpace nameParts).
  { destruct H3 as [H3|H3]; [|exact H3]. rewrite H3.
    destruct nameParts as [|p ps]; [done|]. apply list_elem_of_here. }
  destruct (bool_decide_reflect (r = EmptyString)) as [He|Hne'].
  - left. split; [done|]. eapply Forall_impl; [exact Hlen|].
    intros part Hp. rewrite He in Hp. simpl in Hp. destruct part; [done | simpl in Hp; lia].
  - right. exists r. done.
Qed.

(** ** Resolution of the sub-command, continued *)

(** X12: whatever way [Run] settles on a sub-command, by the first
    argument, by the fallback or by the default command of a root command
    without arguments, the sub-command is one of the direct sub-commands of
    the command, and it answers to the first argument, as the suggestion
    function gives it, or to the name of the default command. *)
Theorem resolveSubCommand_direct_child
    (suggest : option (list Command -> string -> string))
    (cmd : Command) (parents : list Command) (args : list string) (subCmd : Command) :
  resolveSubCommand suggest cmd parents args = Ok (Some subCmd) ->
  subCmd ∈ Commands cmd /\
  (HasName subCmd (DefaultCommand cmd) = true \/
   exists first rest, args = first :: rest /\
     HasName subCmd (match suggest with
                     | Some f => f (Commands cmd) first
                     | None => first
                     end) = true).
Proof.
  unfold resolveSubCommand. destruct args as [|first rest].
  - destruct parents; [|done].
    destruct (negb (bool_decide (DefaultCommand cmd = EmptyString))); [|done].
    intros H. injection H as H.
      apply Command_Command_elem_of in H as [H1 H2]. auto.
  - simpl First.
    set (name := match suggest with Some f => f (Commands cmd) first | None => first end).
    destruct (Command_Command cmd name) as [sub|] eqn:Hsub.
    + intros H. injection H as ->.
      apply Command_Command_elem_of in Hsub as [H1 H2].
      split; [done|]. right. by exists first, rest.
    + destruct (FlagNames (Lineage cmd parents)) as [flagNames| |]; [|done..]. simpl.
      destruct (defaultFallback cmd name flagNames) as [[|]| |]; [|done..]. simpl.
      unfold argsWithDefaultCommand.
      destruct (negb (bool_decide (DefaultCommand cmd = EmptyString))) eqn:Hd.
      * destruct (bool_decide (first :: rest = _)); simpl; [done|].
        intros H. injection H as H.
        apply Command_Command_elem_of in H as [H1 H2]. auto.
      * rewrite bool_decide_eq_true_2 by done. done.
Qed.

Lemma resolveSubCommand_direct_child_witness :
  resolveSubCommand None defaultApp [] ["fast"] = Ok (Some runCommand) /\
  runCommand ∈ Commands defaultApp /\
  HasName runCommand (DefaultCommand defaultApp) = true.
Proof.
  assert (H : resolveSubCommand None defaultApp [] ["fast"] = Ok (Some runCommand))
    by (vm_compute; reflexivity).
  split; [exact H|].
  split; [exact (proj1 (resolveSubCommand_direct_child None defaultApp [] ["fast"]
                          runCommand H)) | reflexivity].
Defined.

(** X13: without a default command there is no fallback. With flag sets
    along the lineage, the sub-command is the one the first argument names,
    if there is one, also when the first argument is the name of a flag in
    use; without arguments there is none. *)
Theorem resolveSubCommand_without_default
    (suggest : option (list Command -> string -> string))
    (cmd : Command) (parents : list Command) (args : list string) :
  DefaultCommand cmd = EmptyString ->
  Forall (fun c => is_Some (flagSet c)) (Lineage cmd parents) ->
  resolveSubCommand suggest cmd parents args
  = Ok (match args with
        | [] => None
        | first :: _ =>
            Command_Command cmd (match suggest with
                                 | Some f => f (Commands cmd) first
                                 | None => first
                                 end)
        end).
Proof.
  intros Hd Hfs. unfold resolveSubCommand. destruct args as [|first rest].
  - rewrite Hd. simpl. by destruct parents.
  - simpl First.
    set (name := match suggest with Some f => f (Commands cmd) first | None => first end).
    destruct (Command_Command cmd name) as [sub|] eqn:Hsub; [done|].
    rewrite (FlagNames_Ok _ Hfs). simpl.
    unfold defaultFallback, argsWithDefaultCommand. rewrite Hd. simpl.
    rewrite orb_false_r, bool_decide_eq_true_2 by done.
    by destruct (checkStringSliceIncludes name _).
Qed.

(** The argument [config] is the name of a flag of [serve] and names no
    sub-command: no sub-command is run. *)
Lemma resolveSubCommand_without_default_witness :
  DefaultCommand serveParsed = EmptyString /\
  resolveSubCommand None serveParsed [appParsed] ["config"] = Ok None.
Proof.
  split; [reflexivity|].
  apply (resolveSubCommand_without_default None serveParsed [appParsed] ["config"]).
  - reflexivity.
  - repeat constructor; (eexists; vm_compute; reflexivity).
Defined.

(** X14: a default command that names no sub-command makes every run with
    a first argument that names no sub-command either panic: the sub-commands
    of the default command are read through a nil pointer. *)
Theorem resolveSubCommand_dangling_default_panics
    (suggest : option (list Command -> string -> string))
    (cmd : Command) (parents : list Command) (first : string) (rest : list string) :
  DefaultCommand cmd <> EmptyString ->
  Command_Command cmd (DefaultCommand cmd) = None ->
  Command_Command cmd (match suggest with
                       | Some f => f (Commands cmd) first
                       | None => first
                       end) = None ->
  resolveSubCommand suggest cmd parents (first :: rest) = Panicked.
Proof.
  intros Hd Hdc Hsub. unfold resolveSubCommand. simpl First. rewrite Hsub.
  destruct (FlagNames (Lineage cmd parents)) as [flagNames|e|] eqn:Hfn; simpl.
  - unfold defaultFallback.
    rewrite (bool_decide_eq_false_2 (DefaultCommand cmd = EmptyString)) by done. simpl.
    by rewrite Hdc.
  - exfalso. destruct (decide (Forall (fun c => is_Some (flagSet c)) (Lineage cmd parents)))
      as [Hall|Hnall].
    + rewrite (FlagNames_Ok _ Hall) in Hfn. done.
    + apply not_Forall_Exists in Hnall; [|intros c; apply _].
      apply Exists_exists in Hnall as (c & Hc & Hnone).
      rewrite (FlagNames_Panicked (Lineage cmd parents)) in Hfn; [done|].
      apply Exists_exists. exists c. split; [done|].
      simpl in Hnone. destruct (flagSet c); [|done]. exfalso. apply Hnone. by eexists.
  - done.
Qed.

Lemma resolveSubCommand_dangling_default_panics_witness :
  DefaultCommand danglingDefaultApp <> EmptyString /\
  resolveSubCommand None danglingDefaultApp [] ["start"; "now"] = Panicked.
Proof.
  split; [discriminate|].
  apply (resolveSubCommand_dangling_default_panics None danglingDefaultApp [] "start" ["now"]).
  - discriminate.
  - reflexivity.
  - reflexivity.
Defined.

(** ** The actions of the flags *)

(** X15: when no action of a flag that is set fails, [runFlagActions] runs
    the action of every flag that is set and has one, in the order of the
    flags, and returns no error; the action of a flag that is not set is not
    run. *)
Theorem runFlagActions_runs_due_actions (cmd : Command) (parents : list Command)
    (flags : list Flag) :
  (forall fl err, fl ∈ flags -> flagIsSet cmd parents fl = true ->
                  RunAction fl <> Some (Some err)) ->
  runFlagActions cmd parents flags
  = (map EvFlagAction (actionsDue cmd parents flags), None).
Proof.
  induction flags as [|fl rest IH]; intros H; [done|].
  cbn [runFlagActions]. unfold actionsDue. cbn [List.filter].
  fold (flagIsSet cmd parents fl). fold (actionsDue cmd parents rest).
  rewrite IH by (intros f e Hf; apply H; by apply list_elem_of_further).
  destruct (flagIsSet cmd parents fl) eqn:Hs; simpl; [|done].
  destruct (RunAction fl) as [[err|]|] eqn:Ha; simpl; [|done..].
  by destruct (H fl err (list_elem_of_here _ _) Hs).
Qed.

Lemma runFlagActions_runs_due_actions_witness :
  runFlagActions actionsCommand []
    [actionFlag "one" None; stringFlag ["two"] "x"; actionFlag "four" None]
  = ([EvFlagAction (actionFlag "one" None); EvFlagAction (actionFlag "four" None)], None).
Proof.
  apply (runFlagActions_runs_due_actions actionsCommand []
           [actionFlag "one" None; stringFlag ["two"] "x"; actionFlag "four" None]).
  intros fl err Hfl _. rewrite !elem_of_cons, elem_of_nil in Hfl.
  destruct Hfl as [->|[->|[->|[]]]]; discriminate.
Defined.

(** X16: [runFlagActions] stops at the first action that fails. The actions
    due of the flags before it have run, its error is returned, and no action
    of a flag after it is run. *)
Theorem runFlagActions_stops_at_first_error (cmd : Command) (parents : list Command)
    (pre : list Flag) (fl : Flag) (rest : list Flag) (err : error) :
  (forall f e, f ∈ pre -> flagIsSet cmd parents f = true ->
               RunAction f <> Some (Some e)) ->
  flagIsSet cmd parents fl = true ->
  RunAction fl = Some (Some err) ->
  runFlagActions cmd parents (pre ++ fl :: rest)
  = (map EvFlagAction (actionsDue cmd parents pre) ++ [EvFlagAction fl], Some err).
Proof.
  intros Hpre Hs Ha. induction pre as [|f pre IH].
  - cbn [app runFlagActions]. fold (flagIsSet cmd parents fl). by rewrite Hs, Ha.
  - cbn [app runFlagActions]. unfold actionsDue. cbn [List.filter].
    fold (flagIsSet cmd parents f). fold (actionsDue cmd parents pre).
    rewrite IH by (intros f' e Hf'; apply Hpre; by apply list_elem_of_further).
    destruct (flagIsSet cmd parents f) eqn:Hsf; simpl; [|done].
    destruct (RunAction f) as [[e|]|] eqn:Haf; simpl; [|done..].
    by destruct (Hpre f e (list_elem_of_here _ _) Hsf).
Qed.

(** The action of [three] fails: the action of [one] has run, the flag
    [two] is not set, and the action of [four] is not run. *)
Lemma runFlagActions_stops_at_first_error_witness :
  runFlagActions actionsCommand [] (appliedFlags actionsCommand)
  = ([EvFlagAction (actionFlag "one" None);
      EvFlagAction (actionFlag "three" (Some (errString "three")))],
     Some (errString "three")).
Proof.
  apply (runFlagActions_stops_at_first_error actionsCommand []
           [actionFlag "one" None; stringFlag ["two"] "x"]
           (actionFlag "three" (Some (errString "three")))
           [actionFlag "four" None] (errString "three")).
  - intros f e Hf _. rewrite !elem_of_cons, elem_of_nil in Hf.
    destruct Hf as [->|[->|[]]]; discriminate.
  - vm_compute. reflexivity.
  - reflexivity.
Defined.

(** The events of [runFlagActions] are actions of flags that are set. *)
Lemma runFlagActions_events (cmd : Command) (parents : list Command)
    (flags : list Flag) (e : event) :
  e ∈ (runFlagActions cmd parents flags).1 ->
  exists fl, e = EvFlagAction fl /\ fl ∈ flags /\ flagIsSet cmd parents fl = true.
Proof.
  induction flags as [|fl rest IH]; cbn [runFlagActions].
  - by intros H%elem_of_nil.
  - fold (flagIsSet cmd parents fl).
    assert (Hrest : e ∈ (runFlagActions cmd parents rest).1 ->
                    exists fl', e = EvFlagAction fl' /\ fl' ∈ fl :: rest /\
                                flagIsSet cmd parents fl' = true).
    { intros H. destruct (IH H) as (fl' & H1 & H2 & H3).
      exists fl'. split; [done|]. split; [by apply list_elem_of_further | done]. }
    destruct (flagIsSet cmd parents fl) eqn:Hs; [|exact Hrest].
    destruct (RunAction fl) as [[err|]|]; [| |exact Hrest].
    + simpl. intros H%list_elem_of_singleton. exists fl.
      split; [done|]. split; [apply list_elem_of_here | done].
    + destruct (runFlagActions cmd parents rest) as [tr r]. simpl in *.
      intros H. apply elem_of_cons in H as [->|H]; [|by apply Hrest].
      exists fl. split; [done|]. split; [apply list_elem_of_here | done].
Qed.

(** ** The hooks, continued *)

Section RunMore.

Variable SuggestCommandFunc : option (list Command -> string -> string).
Variable checkGroup : list (list Flag) -> option error.
Variable helpCommandAction : hook.
Variable RunSub : Command -> list Command -> list string -> result (option error).

Local Abbreviation RunTail_ :=
  (RunTail SuggestCommandFunc checkGroup helpCommandAction RunSub).

Local Ltac no_hook Hf :=
  let H := fresh "H" in
  simpl; intros H;
  repeat first [rewrite elem_of_app in H | rewrite elem_of_cons in H
               | rewrite elem_of_nil in H];
  repeat match goal with
         | H' : _ \/ _ |- _ => destruct H' as [H'|H']
         end;
  try done; try (apply Hf in H as (? & ? & _); done).


(** X18: a required flag of the command with a last name that is not empty
    and none of its names set stops [Run] before the [Before] hook: the help
    of the command is shown, neither [Before] nor an action of a flag nor
    the action nor a sub-command is run, and the error names the flag. The
    [After] hook, whose call is deferred before the check, still runs and
    its error is joined to the error of the check. *)
Theorem missing_required_flag_stops_run (cmd : Command) (parents : list Command)
    (f : Flag) :
  f ∈ Flags cmd ->
  IsRequired f = true ->
  unsetFlag cmd parents f = true ->
  lastName f <> EmptyString ->
  let missing := map lastName (List.filter (reported cmd parents) (Flags cmd)) in
  let deferred := if EnableShellCompletion cmd then None else After cmd in
  lastName f ∈ missing /\
  RunTail_ cmd parents
  = ([EvShowSubcommandHelp]
       ++ match deferred with Some after => afterEvents after | None => [] end,
     Ok (Some (match deferred with
               | Some after => mergedError (errRequiredFlags missing) after
               | None => errRequiredFlags missing
               end))).
Proof.
  intros Hf Hr Hu Hn missing deferred.
  assert (Hin : lastName f ∈ missing).
  { apply list_elem_of_In, in_map, filter_In. split; [by apply list_elem_of_In|].
    unfold reported. rewrite Hr, Hu. simpl. by rewrite bool_decide_eq_false_2. }
  split; [exact Hin|].
  assert (Hchk : checkRequiredFlags cmd parents = Some (errRequiredFlags missing)).
  { unfold checkRequiredFlags. rewrite missingFlags_spec. fold missing.
    destruct missing; [by apply elem_of_nil in Hin | done]. }
  unfold RunTail, runBody. rewrite Hchk. fold deferred.
  by destruct deferred as [[afterErr|]|].
Qed.

(** X19: when [Run] settles on a sub-command, the action of the command is
    not run. The sub-command is run, after [Before] and the actions of the
    flags, with the arguments of the command as they are, the name of a
    default command not put in front; the [After] hook of the command runs
    when the sub-command is done, and its error is joined to the error of
    the sub-command. *)
Theorem sub_command_replaces_action (cmd : Command) (parents : list Command)
    (trF : list event) (args : list string) (subCmd : Command) :
  checkRequiredFlags cmd parents = None ->
  checkGroups checkGroup (MutuallyExclusiveFlags cmd) = None ->
  (forall err, EnableShellCompletion cmd = false -> Before cmd <> Some (Some err)) ->
  runFlagActions cmd parents (appliedFlags cmd) = (trF, None) ->
  Args cmd = Ok args ->
  resolveSubCommand SuggestCommandFunc cmd parents args = Ok (Some subCmd) ->
  let before := if EnableShellCompletion cmd then None else Before cmd in
  let deferred := if EnableShellCompletion cmd then None else After cmd in
  (EvAction ∉ (RunTail_ cmd parents).1) /\
  RunTail_ cmd parents
  = (match before with Some _ => [EvBefore] | None => [] end
       ++ trF ++ [EvSubCommand subCmd args]
       ++ match deferred with Some after => afterEvents after | None => [] end,
     match deferred, RunSub subCmd (cmd :: parents) args with
     | Some (Some afterErr), Ok (Some subErr) => Ok (Some (newMultiError [subErr; afterErr]))
     | Some (Some afterErr), Ok None => Ok (Some afterErr)
     | _, res => res
     end).
Proof.
  intros Hr Hg Hb Hfl Hargs Hres before deferred.
  assert (Heq : RunTail_ cmd parents
    = (match before with Some _ => [EvBefore] | None => [] end
         ++ trF ++ [EvSubCommand subCmd args]
         ++ match deferred with Some after => afterEvents after | None => [] end,
       match deferred, RunSub subCmd (cmd :: parents) args with
       | Some (Some afterErr), Ok (Some subErr) =>
           Ok (Some (newMultiError [subErr; afterErr]))
       | Some (Some afterErr), Ok None => Ok (Some afterErr)
       | _, res => res
       end)).
  { unfold RunTail, runBody. rewrite Hr, Hg, Hfl, Hargs. simpl. rewrite Hres. simpl.
    fold before. fold deferred.
    assert (Hb' : forall err, before <> Some (Some err)).
    { intros err. unfold before. destruct (EnableShellCompletion cmd); [done|].
      by apply Hb. }
    destruct before as [[err|]|]; [by destruct (Hb' err)|..];
      destruct deferred as [[afterErr|]|]; simpl; rewrite <- ?app_assoc; try done;
      by destruct (RunSub subCmd (cmd :: parents) args) as [[?|]| |]. }
  split; [|exact Heq]. rewrite Heq. simpl.
  pose proof (fun e => runFlagActions_events cmd parents (appliedFlags cmd) e) as Hf.
  rewrite Hfl in Hf. simpl in Hf.
  destruct before as [?|]; destruct deferred as [[?|]|]; no_hook Hf.
Qed.

End RunMore.


(** The required flag [second] is not set: the run stops at the check. *)
Lemma missing_required_flag_stops_run_witness :
  "second" ∈ map lastName (List.filter (reported twoRequiredCommand [])
                                       (Flags twoRequiredCommand)) /\
  RunTail None (fun _ => None) None (fun _ _ _ => Ok None) twoRequiredCommand []
  = ([EvShowSubcommandHelp], Ok (Some (errRequiredFlags ["f"; "second"]))).
Proof.
  destruct (missing_required_flag_stops_run None (fun _ => None) None
              (fun _ _ _ => Ok None) twoRequiredCommand []
              (required (stringFlag ["second"] "")))
    as [H1 H2].
  - apply list_elem_of_further, list_elem_of_further, list_elem_of_here.
  - reflexivity.
  - vm_compute. reflexivity.
  - discriminate.
  - split; [exact H1|]. rewrite H2. vm_compute. reflexivity.
Defined.

(** The application is run with the arguments [stop now]: the sub-command
    [stop] is run with both, it fails, and so does the [After] hook of the
    application. *)
Lemma sub_command_replaces_action_witness :
  RunTail None (fun _ => None) None (fun _ _ _ => Ok (Some (errString "stop")))
          stoppingApp []
  = ([EvSubCommand (namedCommand "stop") ["stop"; "now"];
      EvAfter; EvExitCoder (errString "after")],
     Ok (Some (multiError [errString "stop"; errString "after"]))).
Proof.
  apply (sub_command_replaces_action None (fun _ => None) None
           (fun _ _ _ => Ok (Some (errString "stop"))) stoppingApp []
           [] ["stop"; "now"] (namedCommand "stop")).
  - vm_compute. reflexivity.
  - reflexivity.
  - discriminate.
  - vm_compute. reflexivity.
  - vm_compute. reflexivity.
  - vm_compute. reflexivity.
Defined.

(** ** Flag parsing that is skipped *)

(** X20: a command that skips the parsing of its flags inherits nothing:
    its flag set binds the names of its own flags and no other name, also
    when an ancestor has persistent flags, and no flag of an ancestor joins
    its applied flags. *)
Theorem parseFlags_skip_inherits_nothing (cmd : Command) (parents : list Command)
    (fs : FlagSet) (applied : list Flag) :
  SkipFlagParsing cmd = true ->
  parseFlags cmd parents = Ok (fs, applied) ->
  applied = appliedFlags cmd ++ allFlags cmd /\
  (forall n fl, Lookup fs n = Some fl <-> fl ∈ allFlags cmd /\ n ∈ Names fl).
Proof.
  intros Hskip. unfold parseFlags. rewrite Hskip.
  destruct (newFlagSet (allFlags cmd)) as [fs0| |] eqn:Hnew; [|done..]. simpl.
  intros H. injection H as -> <-. split; [done|].
  intros n fl. unfold newFlagSet in Hnew. rewrite (applyFlags_Ok _ _ _ Hnew).
  unfold Lookup, emptyFlagSet. simpl. rewrite lookup_empty.
  split; [by intros [?|?] | by right].
Qed.

(** The application has the persistent flag [verbose]; [serve], when it
    skips the parsing of its flags, does not get it. *)
Lemma parseFlags_skip_inherits_nothing_witness :
  IsPersistent verboseFlag = true /\
  verboseFlag ∈ Flags appCommand /\
  exists fs, parseFlags skippingCommand [appCommand] = Ok (fs, [serveConfigFlag]) /\
             Lookup fs "verbose" = None.
Proof.
  split; [reflexivity|]. split; [apply list_elem_of_here|].
  pose (fs := match parseFlags skippingCommand [appCommand] with
              | Ok (fs, _) => fs
              | _ => emptyFlagSet
              end).
  assert (H : parseFlags skippingCommand [appCommand] = Ok (fs, [serveConfigFlag]))
    by (vm_compute; reflexivity).
  exists fs. split; [exact H|].
  destruct (parseFlags_skip_inherits_nothing skippingCommand [appCommand] fs
              [serveConfigFlag] eq_refl H) as [_ Hown].
  destruct (Lookup fs "verbose") as [fl|] eqn:Hl; [|reflexivity].
  apply Hown in Hl as [Hfl Hn]. exfalso.
  change (allFlags skippingCommand) with [serveConfigFlag] in Hfl.
  rewrite list_elem_of_singleton in Hfl. subst fl.
  change (Names serveConfigFlag) with ["config"] in Hn.
  rewrite list_elem_of_singleton in Hn. discriminate.
Defined.

(** ** The full name and the root of a command *)

Lemma append_assoc (a b c : string) : (a +:+ b) +:+ c = a +:+ (b +:+ c).
Proof.
  induction a as [|x a IH]; [done|].
  change (String x ((a +:+ b) +:+ c) = String x (a +:+ (b +:+ c))). by rewrite IH.
Qed.

Lemma Join_snoc (l : list string) (x sep : string) :
  l <> [] ->
  GoStrings.Join (l ++ [x]) sep = GoStrings.Join l sep +:+ sep +:+ x.
Proof.
  induction l as [|y l IH]; intros Hne; [done|].
  destruct l as [|z l]; [done|].
  change (GoStrings.Join ((y :: z :: l) ++ [x]) sep)
    with (y +:+ sep +:+ GoStrings.Join ((z :: l) ++ [x]) sep).
  rewrite IH by done.
  change (GoStrings.Join (y :: z :: l) sep)
    with (y +:+ sep +:+ GoStrings.Join (z :: l) sep).
  by rewrite !append_assoc.
Qed.

(** X21: the full name of a command is the names of the commands of its
    lineage, the root first and the command last, with a space between
    two names. *)
Theorem FullName_names_from_root (cmd : Command) (parents : list Command) :
  FullName cmd parents
  = GoStrings.Join (map Name (reverse (Lineage cmd parents))) " ".
Proof.
  revert cmd. induction parents as [|parent rest IH]; intros cmd; [done|].
  cbn [FullName]. rewrite IH. unfold Lineage. simpl.
  rewrite (reverse_cons _ cmd), map_app. simpl.
  rewrite Join_snoc; [done|].
  rewrite reverse_cons, map_app. by destruct (map Name (reverse rest)).
Qed.

Lemma Root_last (parents : list Command) : forall (cmd : Command),
  last (Lineage cmd parents) = Some (Root cmd parents).
Proof.
  induction parents as [|parent rest IH]; intros cmd; [done|].
  simpl. specialize (IH parent). unfold Lineage in IH. simpl in IH. by rewrite <- IH.
Qed.

Lemma HasPrefix_refl (s : string) : GoStrings.HasPrefix s s = true.
Proof.
  unfold GoStrings.HasPrefix. induction s as [|c s IH]; [done|].
  cbn [String.prefix]. by destruct (ascii_dec c c).
Qed.

Lemma HasPrefix_app_l (s t pfx : string) :
  GoStrings.HasPrefix s pfx = true -> GoStrings.HasPrefix (s +:+ t) pfx = true.
Proof.
  unfold GoStrings.HasPrefix. revert s.
  induction pfx as [|c pfx IH]; intros s H; [by destruct (s +:+ t)|].
  destruct s as [|d s]; [done|].
  change (String d s +:+ t) with (String d (s +:+ t)).
  cbn [String.prefix] in *. destruct (ascii_dec c d); [by apply IH | done].
Qed.

(** X22: the root of a command is the last command of its lineage, and
    the full name of the command begins with the name of the root. *)
Theorem Root_heads_full_name (cmd : Command) (parents : list Command) :
  last (Lineage cmd parents) = Some (Root cmd parents) /\
  GoStrings.HasPrefix (FullName cmd parents) (Name (Root cmd parents)) = true.
Proof.
  split; [apply Root_last|].
  revert cmd. induction parents as [|parent rest IH]; intros cmd.
  - apply HasPrefix_refl.
  - cbn [FullName Root]. simpl. by apply HasPrefix_app_l.
Qed.

Example FullName_of_serve : FullName serveCommand [appCommand] = "app serve".
Proof. reflexivity. Qed.

(** ** The context of a command *)

Lemma Context_lookupFlag_contextOf (lineage : list Command) (name : string) :
  Context_lookupFlag (map contextOf lineage) name
  = find (fun f => existsb (fun n => bool_decide (n = name)) (Names f))
         (flat_map Flags lineage).
Proof.
  unfold Context_lookupFlag. f_equal.
  induction lineage as [|cmd rest IH]; simpl; [done | by rewrite IH].
Qed.

Lemma Context_lookupFlagSetIn_contextOf (lineage : list Command) (name : string) :
  Context_lookupFlagSetIn (map contextOf lineage) name = lookupFlagSetIn lineage name.
Proof.
  induction lineage as [|cmd rest IH]; simpl; [done|].
  destruct (flagSet cmd) as [fs|]; [|exact IH].
  destruct (Lookup fs name); [done | exact IH].
Qed.

Lemma Context_onInvalidFlag_contextOf (lineage : list Command) (name : string) :
  contextCall <$> Context_onInvalidFlag (map contextOf lineage) name
  = commandCall <$> onInvalidFlag lineage name.
Proof.
  induction lineage as [|cmd rest IH]; simpl; [done|].
  destruct (InvalidFlagAccessHandler cmd); [done | exact IH].
Qed.

Lemma Context_lookupFlagSet_contextOf (cmd : Command) (parents : list Command)
    (name : string) :
  (Context_lookupFlagSet (map contextOf (Lineage cmd parents)) name).1
  = (lookupFlagSet cmd parents name).1 /\
  contextCall <$> (Context_lookupFlagSet (map contextOf (Lineage cmd parents)) name).2
  = commandCall <$> (lookupFlagSet cmd parents name).2.
Proof.
  unfold Context_lookupFlagSet, lookupFlagSet.
  rewrite Context_lookupFlagSetIn_contextOf.
  destruct (lookupFlagSetIn (Lineage cmd parents) name); [done|].
  split; [done|]. apply (Context_onInvalidFlag_contextOf (cmd :: parents)).
Qed.

Lemma Context_IsSet_contextOf (cmd : Command) (parents : list Command) (name : string) :
  (Context_IsSet (map contextOf (Lineage cmd parents)) name).1
  = (Command_IsSet cmd parents name).1 /\
  contextCall <$> (Context_IsSet (map contextOf (Lineage cmd parents)) name).2
  = commandCall <$> (Command_IsSet cmd parents name).2.
Proof.
  unfold Context_IsSet, Command_IsSet, lookupFlag.
  destruct (Context_lookupFlagSet_contextOf cmd parents name) as [H1 H2].
  rewrite Context_lookupFlag_contextOf.
  destruct (Context_lookupFlagSet _ name) as [fs1 call1].
  destruct (lookupFlagSet cmd parents name) as [fs2 call2].
  simpl in H1, H2. subst fs2. destruct fs1 as [fs|]; [|done].
  destruct (existsb _ (Visit fs)); [done|].
  by destruct (find _ _).
Qed.

(** X23: the context of a command answers as the command does. When each
    command of a lineage has the context made of it and of its flag set,
    [IsSet] and [Value] of the context return what [IsSet] and [Value] of
    the command return, and an access to a flag that no flag set defines
    calls the same handler with the same name, that of the nearest command
    that has one. *)
Theorem Context_lookups_agree (cmd : Command) (parents : list Command) (name : string) :
  let lineage := map contextOf (Lineage cmd parents) in
  (Context_IsSet lineage name).1 = (Command_IsSet cmd parents name).1 /\
  (Context_Value lineage name).1 = (Command_Value cmd parents name).1 /\
  contextCall <$> (Context_IsSet lineage name).2
  = commandCall <$> (Command_IsSet cmd parents name).2 /\
  contextCall <$> (Context_Value lineage name).2
  = commandCall <$> (Command_Value cmd parents name).2.
Proof.
  intros lineage. unfold lineage.
  destruct (Context_IsSet_contextOf cmd parents name) as [H1 H2].
  split; [exact H1|]. split; [|split; [exact H2|]].
  - unfold Context_Value, Command_Value.
    destruct (Context_lookupFlagSet_contextOf cmd parents name) as [H3 H4].
    destruct (Context_lookupFlagSet _ name) as [fs1 call1].
    destruct (lookupFlagSet cmd parents name) as [fs2 call2].
    simpl in H3. subst fs2. by destruct fs1.
  - unfold Context_Value, Command_Value.
    destruct (Context_lookupFlagSet_contextOf cmd parents name) as [H3 H4].
    destruct (Context_lookupFlagSet _ name) as [fs1 call1].
    destruct (lookupFlagSet cmd parents name) as [fs2 call2].
    simpl in H3, H4. subst fs2. by destruct fs1.
Qed.

(** X24: the check of the required flags of a context, given the flags of
    its command, returns what the check of the command returns: the same
    flags are missing, under the same names and in the same order. *)
Theorem Context_checkRequiredFlags_agrees (cmd : Command) (parents : list Command) :
  Context_checkRequiredFlags (map contextOf (Lineage cmd parents)) (Flags cmd)
  = checkRequiredFlags cmd parents.
Proof.
  unfold Context_checkRequiredFlags, checkRequiredFlags.
  rewrite (flat_map_ext _ (missingFlag cmd parents)); [done|].
  intros f. unfold missingFlag, requiredFlagScan. destruct (IsRequired f); [|done].
  assert (Hfold : forall names st,
    fold_left
      (fun (st : string * bool) key =>
         (key, if (Context_IsSet (map contextOf (Lineage cmd parents))
                     (GoStrings.TrimSpace key)).1
               then true else st.2)) names st
    = fold_left
        (fun (st : string * bool) key =>
           (key, st.2 || (Command_IsSet cmd parents (GoStrings.TrimSpace key)).1))
        names st).
  { induction names as [|n names IHn]; intros st; cbn [fold_left]; [done|].
    rewrite IHn. f_equal. f_equal.
    rewrite (proj1 (Context_IsSet_contextOf cmd parents (GoStrings.TrimSpace n))).
    destruct ((Command_IsSet cmd parents (GoStrings.TrimSpace n)).1);
      [by rewrite orb_true_r | by rewrite orb_false_r]. }
  by rewrite Hfold.
Qed.

Lemma Context_LocalFlagNames_contextOf (cmd : Command) :
  Context_LocalFlagNames (contextOf cmd) = LocalFlagNames cmd.
Proof. unfold Context_LocalFlagNames, LocalFlagNames. simpl. by destruct (flagSet cmd). Qed.

Lemma concat_reverse_Permutation {A : Type} (l : list (list A)) :
  concat (reverse l) ≡ₚ concat l.
Proof.
  induction l as [|x l IH]; [done|].
  rewrite reverse_cons, concat_app. simpl. rewrite app_nil_r, IH.
  apply Permutation_app_comm.
Qed.

(** X25: [FlagNames] of a context gives the names of the flags in use of
    the context first and of the root last, the reverse of the order in which
    [FlagNames] of the command gives them; the names are the same, with the
    same repetitions. *)
Theorem Context_FlagNames_child_first (lineage : list Command) :
  Forall (fun c => is_Some (flagSet c)) lineage ->
  Context_FlagNames (map contextOf lineage) = Ok (concat (map localNamesOf lineage)) /\
  exists names, FlagNames lineage = Ok names /\
                names ≡ₚ concat (map localNamesOf lineage).
Proof.
  intros Hfs. split.
  - induction lineage as [|cmd rest IH]; [done|].
    inversion Hfs as [|? ? [fs Hc] Hrest]; subst.
    cbn [map Context_FlagNames]. rewrite Context_LocalFlagNames_contextOf.
    assert (Hl : LocalFlagNames cmd = Ok (localNamesOf cmd)).
    { unfold localNamesOf, LocalFlagNames. by rewrite Hc. }
    rewrite Hl, (IH Hrest). done.
  - exists (concat (reverse (map localNamesOf lineage))).
    split; [by apply FlagNames_Ok | apply concat_reverse_Permutation].
Qed.

(** The flag [config] of [serve] and the flags of the application, all of
    them set by a source: the context lists [config] first, the command
    last. *)
Lemma Context_FlagNames_child_first_witness :
  Context_FlagNames (map contextOf [sourcedServe; sourcedApp])
  = Ok ["config"; "verbose"; "v"] /\
  FlagNames [sourcedServe; sourcedApp] = Ok ["verbose"; "v"; "config"].
Proof.
  destruct (Context_FlagNames_child_first [sourcedServe; sourcedApp]) as [H1 _].
  - repeat constructor; (eexists; vm_compute; reflexivity).
  - split; [|vm_compute; reflexivity]. rewrite H1. vm_compute. reflexivity.
Defined.

(** ** New contexts *)

Lemma Context_lookupFlagSetIn_empty_parent (c : Context) (rest : list Context)
    (name : string) :
  ctxFlagSet c = None ->
  Context_lookupFlagSetIn
    ({| ctxCommand := ctxCommand c; shellComplete := shellComplete c;
        ctxFlagSet := Some emptyFlagSet |} :: rest) name
  = Context_lookupFlagSetIn (c :: rest) name.
Proof.
  intros Hc. simpl. rewrite Hc. unfold Lookup, emptyFlagSet. simpl.
  by rewrite lookup_empty.
Qed.

(** X26: [NewContext] never leaves the new context without a command, and
    it gives a parent that has no flag set an empty one, so that the names of
    the flags in use and the number of flags of the parent can be asked for
    without a panic. The empty flag set defines no flag: [IsSet] and [Value]
    along the lineage are what they are with the parent left alone. *)
Theorem NewContext_keeps_lookups (cmd : option Command) (set : option FlagSet)
    (parents : list Context) (name : string) :
  let cCtx := (NewContext cmd set parents).1 in
  let parents' := (NewContext cmd set parents).2 in
  is_Some (ctxCommand cCtx) /\
  ctxFlagSet cCtx = set /\
  (forall parent rest, parents' = parent :: rest ->
     Context_LocalFlagNames parent <> Panicked /\ NumFlags parent <> Panicked) /\
  (Context_IsSet (cCtx :: parents') name).1 = (Context_IsSet (cCtx :: parents) name).1 /\
  (Context_Value (cCtx :: parents') name).1 = (Context_Value (cCtx :: parents) name).1.
Proof.
  intros cCtx parents'.
  assert (Hcmd : is_Some (ctxCommand cCtx)).
  { unfold cCtx, NewContext. destruct parents as [|parent rest], cmd; simpl; by eexists. }
  assert (Hset : ctxFlagSet cCtx = set).
  { unfold cCtx, NewContext. by destruct parents as [|parent rest], cmd. }
  split; [exact Hcmd|]. split; [exact Hset|].
  destruct parents as [|p rest].
  { split; [by intros parent rest' H|]. done. }
  assert (Hp : parents' = match ctxFlagSet p with
                          | None => {| ctxCommand := ctxCommand p;
                                       shellComplete := shellComplete p;
                                       ctxFlagSet := Some emptyFlagSet |}
                          | Some _ => p
                          end :: rest).
  { unfold parents', NewContext. by destruct cmd. }
  clearbody parents' cCtx. subst parents'.
  destruct (ctxFlagSet p) as [fs|] eqn:Hfs.
  { split; [|done]. intros parent rest' H. injection H as <- <-.
    unfold Context_LocalFlagNames, NumFlags. by rewrite Hfs. }
  split; [by intros parent rest' H; injection H as <- <-|].
  assert (Hin : Context_lookupFlagSetIn
                  (cCtx :: {| ctxCommand := ctxCommand p; shellComplete := shellComplete p;
                              ctxFlagSet := Some emptyFlagSet |} :: rest) name
                = Context_lookupFlagSetIn (cCtx :: p :: rest) name).
  { cbn [Context_lookupFlagSetIn].
    pose proof (Context_lookupFlagSetIn_empty_parent p rest name Hfs) as He.
    cbn [Context_lookupFlagSetIn] in He. by rewrite He. }
  unfold Context_IsSet, Context_Value, Context_lookupFlagSet. rewrite Hin.
  destruct (Context_lookupFlagSetIn (cCtx :: p :: rest) name) as [fs|]; [|done].
  split; [|done]. simpl. by destruct (existsb _ (Visit fs)).
Qed.

(** ** The stages of a run *)

Section RunStages.

Variable SuggestCommandFunc : option (list Command -> string -> string).
Variable checkGroup : list (list Flag) -> option error.
Variable helpCommandAction : hook.
Variable RunSub : Command -> list Command -> list string -> result (option error).

Local Abbreviation RunTail_ :=
  (RunTail SuggestCommandFunc checkGroup helpCommandAction RunSub).

Local Ltac stages Hf :=
  cbv beta iota zeta delta [fst snd mbind result_bind];
  rewrite ?omap_app, ?Hf; simpl; repeat constructor.

Lemma runFlagActions_preliminary (cmd : Command) (parents : list Command)
    (flags : list Flag) :
  forallb preliminary (runFlagActions cmd parents flags).1 = true /\
  omap stageOf (runFlagActions cmd parents flags).1 = [].
Proof.
  pose proof (fun e => runFlagActions_events cmd parents flags e) as Hf.
  induction ((runFlagActions cmd parents flags).1) as [|e tr IH]; [done|].
  destruct (Hf e) as (fl & -> & _); [apply list_elem_of_here|].
  destruct IH as [IH1 IH2].
  { intros e' He'. apply Hf. by apply list_elem_of_further. }
  split; [exact IH1 | exact IH2].
Qed.

(** X27: the error of an action of a flag ends [Run] at once: it is
    returned as it is, without being handed to the exit handler, and neither
    the action of the command nor a sub-command is run. The [After] hook
    still runs, and its error is joined to the error of the flag. *)
Theorem flag_action_error_stops_run (cmd : Command) (parents : list Command)
    (trF : list event) (err : error) :
  checkRequiredFlags cmd parents = None ->
  checkGroups checkGroup (MutuallyExclusiveFlags cmd) = None ->
  (forall e, EnableShellCompletion cmd = false -> Before cmd <> Some (Some e)) ->
  runFlagActions cmd parents (appliedFlags cmd) = (trF, Some err) ->
  let before := if EnableShellCompletion cmd then None else Before cmd in
  let deferred := if EnableShellCompletion cmd then None else After cmd in
  let started := match before with Some _ => [EvBefore] | None => [] end ++ trF in
  forallb preliminary started = true /\
  RunTail_ cmd parents
  = (started ++ match deferred with Some after => afterEvents after | None => [] end,
     Ok (Some (match deferred with
               | Some after => mergedError err after
               | None => err
               end))).
Proof.
  intros Hr Hg Hb Hfl before deferred started. split.
  - unfold started. rewrite forallb_app.
    pose proof (runFlagActions_preliminary cmd parents (appliedFlags cmd)) as [Hp _].
    rewrite Hfl in Hp. simpl in Hp. rewrite Hp. by destruct before.
  - unfold RunTail, runBody. rewrite Hr, Hg, Hfl. fold before. fold deferred.
    assert (Hb' : forall e, before <> Some (Some e)).
    { intros e. unfold before. destruct (EnableShellCompletion cmd); [done|].
      by apply Hb. }
    unfold started.
    destruct before as [[e|]|]; [by destruct (Hb' e)|..];
      destruct deferred as [[afterErr|]|]; simpl; by rewrite ?app_nil_r.
Qed.

(** X28: whatever the command and its hooks are, a run goes through its
    stages in order and through none of them twice: the [Before] hook, then
    either the action of the command or the run of a sub-command, never
    both, then the [After] hook. A stage can be left out. *)
Theorem Run_stages_in_order (cmd : Command) (parents : list Command) :
  omap stageOf (RunTail_ cmd parents).1 `sublist_of` [StBefore; StMain; StAfter].
Proof.
  unfold RunTail, runBody.
  pose proof (runFlagActions_preliminary cmd parents (appliedFlags cmd)) as [_ Hf].
  destruct (runFlagActions cmd parents (appliedFlags cmd)) as [trF ferr].
  cbn [fst] in Hf.
  destruct (EnableShellCompletion cmd), (Before cmd) as [[?|]|], (After cmd) as [[?|]|],
    (checkRequiredFlags cmd parents),
    (checkGroups checkGroup (MutuallyExclusiveFlags cmd)), ferr as [?|];
    try solve [stages Hf].
  all: destruct (Args cmd) as [args| |]; try solve [stages Hf].
  all: cbv beta iota zeta delta [mbind result_bind].
  all: destruct (resolveSubCommand SuggestCommandFunc cmd parents args) as [[subCmd|]| |];
    try solve [stages Hf].
  all: destruct (default helpCommandAction (Action cmd)); stages Hf.
Qed.

End RunStages.

(** The action of the flag [three] fails. *)
Lemma flag_action_error_stops_run_witness :
  RunTail None (fun _ => None) None (fun _ _ _ => Ok None) actionsCommand []
  = ([EvFlagAction (actionFlag "one" None);
      EvFlagAction (actionFlag "three" (Some (errString "three")))],
     Ok (Some (errString "three"))).
Proof.
  destruct (flag_action_error_stops_run None (fun _ => None) None (fun _ _ _ => Ok None)
              actionsCommand []
              [EvFlagAction (actionFlag "one" None);
               EvFlagAction (actionFlag "three" (Some (errString "three")))]
              (errString "three")) as [_ H].
  - vm_compute. reflexivity.
  - reflexivity.
  - discriminate.
  - vm_compute. reflexivity.
  - exact H.
Defined.

(** ** The flags of a command once they are parsed *)

Lemma persistentFlagsOf_keeps (flags : list Flag) : forall (st st' : FlagSet * list Flag),
  persistentFlagsOf st flags = Ok st' ->
  forall n x, Lookup st.1 n = Some x -> Lookup st'.1 n = Some x.
Proof.
  induction flags as [|fl rest IH]; intros st st' H n x Hx; simpl in H.
  - by injection H as <-.
  - destruct (negb (IsPersistent fl)); [by apply (IH st)|].
    destruct (negb (applyPersistentFlag st.1 (Names fl))); [by apply (IH st)|].
    destruct (Flag_Apply fl st.1) as [fs'| |] eqn:Hap; [|done..]. simpl in H.
    apply (IH _ _ H). simpl.
    unfold Flag_Apply in Hap. destruct (applyErr fl); [done|].
    apply VarAll_Ok in Hap as [Hnew Hl]. rewrite Hl.
    destruct (decide (n ∈ Names fl)) as [Hin|]; [|done].
    by rewrite (Hnew n Hin) in Hx.
Qed.

(** X29: once the flags of a command are parsed, each name of a flag of the
    command is bound to that flag in the flag set of the command, also when
    an ancestor has a persistent flag of that name; [Value] of the name, asked
    of the command with that flag set, is the value of the flag of the
    command, and no handler of invalid accesses is called. *)
Theorem own_flag_read_after_parse (cmd : Command) (parents : list Command)
    (fs : FlagSet) (applied : list Flag) (fl : Flag) (n : string) :
  parseFlags cmd parents = Ok (fs, applied) ->
  fl ∈ allFlags cmd ->
  n ∈ Names fl ->
  Lookup fs n = Some fl /\
  forall (parsed : Command) (ancestors : list Command),
    flagSet parsed = Some fs ->
    Command_Value parsed ancestors n = (Some (flagValue fl), None).
Proof.
  intros Hparse Hfl Hn.
  assert (Hl : Lookup fs n = Some fl).
  { unfold parseFlags in Hparse.
    destruct (newFlagSet (allFlags cmd)) as [fs0| |] eqn:Hnew; [|done..].
    simpl in Hparse.
    assert (H0 : Lookup fs0 n = Some fl).
    { unfold newFlagSet in Hnew. apply (applyFlags_Ok _ _ _ Hnew). by right. }
    destruct (SkipFlagParsing cmd).
    - by injection Hparse as <- _.
    - rewrite persistentFlags_flat in Hparse.
      apply (persistentFlagsOf_keeps _ _ _ Hparse n fl H0). }
  split; [exact Hl|].
  intros parsed ancestors Hfs.
  unfold Command_Value, lookupFlagSet, Lineage.
  change ([parsed] ++ ancestors) with (parsed :: ancestors).
  cbn [lookupFlagSetIn]. rewrite Hfs, Hl. simpl. by rewrite Hl.
Qed.

(** The application has the persistent flag [config] and [serve] a flag
    [config] of its own: [serve] reads its own. *)
Lemma own_flag_read_after_parse_witness :
  appConfigFlag ∈ Flags appParsed /\
  IsPersistent appConfigFlag = true /\
  Command_Value serveParsed [appParsed] "config" = (Some (VString "serve"), None).
Proof.
  split; [apply list_elem_of_further, list_elem_of_here|]. split; [reflexivity|].
  assert (H : parseFlags serveCommand [appParsed]
              = Ok (flagSetOf serveParsed, appliedFlags serveParsed))
    by (vm_compute; reflexivity).
  destruct (own_flag_read_after_parse serveCommand [appParsed] (flagSetOf serveParsed)
              (appliedFlags serveParsed) serveConfigFlag "config" H) as [_ Hv].
  - apply list_elem_of_here.
  - apply list_elem_of_here.
  - apply (Hv serveParsed [appParsed]). vm_compute. reflexivity.
Defined.
